(** * assetto-server-manager: the acServer TCP connection manager and the
      dependency Resolver, as a shallow embedding.

    Sources embedded here:
    - [internal/acServer/tcp.go]: [TCP.Listen] (accept loop and the
      per-connection read loop), [TCP.handleConnection], [TCP.Close],
      [closeTCPConnectionWithError], [closeTCPConnection];
    - [resolver.go]: the memoising [resolve*] methods of [Resolver].

    Go channels with a buffer of one are counters bounded by one, the
    transport is a script of the outcomes the kernel hands to successive
    [Read] calls, goroutines are program counters stepped by a scheduler,
    and log lines are structured events appended to a trace. *)

From Stdlib Require Import Strings.Byte Strings.Ascii Strings.String NArith.
From stdpp Require Import base option list functions gmap strings.

Open Scope N_scope.
Open Scope nat_scope.

(** ** Errors *)

(** The [error] values the read loop can see.  [OpError tmp] is a
    [*net.OpError] whose [Temporary()] method answers [tmp]; the other
    constructors are errors that are not a [*net.OpError]. *)
Inductive error : Type :=
| OpError (temporary : bool)
| EOF
| ErrUnexpectedEOF
| OtherError (msg : string).

#[global] Instance error_eq_dec : EqDecision error.
Proof. solve_decision. Defined.

(** The guard of both error branches of the read loop: the error is a
    [net.OpError] and its [Temporary()] method answers false. *)
Definition is_permanent_OpError (err : error) : bool :=
  match err with
  | OpError tmp => negb tmp
  | _ => false
  end.

(** ** Buffered channels of [struct{}] *)

Module Chan.
(** A [chan struct{}] made with [make(chan struct{}, cap)]: only the
    number of buffered tokens matters. *)
Record t : Type := mk { cap : nat; buffered : nat }.

Definition make (cap : nat) : t := mk cap 0.

(** [ch <- struct{}{}]: [None] when the buffer is full, where the sender
    blocks until a receiver makes room. *)
Definition send (ch : t) : option t :=
  if decide (buffered ch < cap ch) then Some (mk (cap ch) (S (buffered ch)))
  else None.

(** [<-ch] as a [select] case next to a [default]: [None] when the
    buffer is empty, where the [default] case is taken. *)
Definition try_recv (ch : t) : option t :=
  match buffered ch with
  | O => None
  | S k => Some (mk (cap ch) k)
  end.
End Chan.

(** ** Bytes, the length prefix and the hex dump *)

(** [binary.LittleEndian.Uint16]. *)
Definition le_uint16 (b0 b1 : byte) : N :=
  (Byte.to_N b0 + 256 * Byte.to_N b1)%N.

(** The two bytes [binary.LittleEndian.PutUint16] produces. *)
Definition put_le_uint16 (n : N) : list byte :=
  match Byte.of_N (n mod 256)%N, Byte.of_N ((n / 256) mod 256)%N with
  | Some b0, Some b1 => [b0; b1]
  | _, _ => []
  end.

Definition hex_digit (n : N) : ascii :=
  match n with
  | 0%N => "0" | 1%N => "1" | 2%N => "2" | 3%N => "3"
  | 4%N => "4" | 5%N => "5" | 6%N => "6" | 7%N => "7"
  | 8%N => "8" | 9%N => "9" | 10%N => "a" | 11%N => "b"
  | 12%N => "c" | 13%N => "d" | 14%N => "e" | _ => "f"
  end%char.

(** [fmt.Sprintf("%x", bs)] for a byte slice: two lower-case digits per
    byte, no separator. *)
Fixpoint hex (bs : list byte) : string :=
  match bs with
  | [] => EmptyString
  | b :: rest =>
      String (hex_digit (Byte.to_N b / 16)%N)
        (String (hex_digit (Byte.to_N b mod 16)%N) (hex rest))
  end.

(** ** The transport *)

(** What the kernel hands to one [Read] call on the socket: some bytes that
    have arrived, or an error.  The script of a connection lists these
    outcomes in order; an exhausted script is a peer that stays silent, on
    which [Read] blocks. *)
Inductive read_event : Type :=
| RData (bs : list byte)
| RErr (err : error).

Inductive read_result : Type :=
| ROk (bs : list byte) (rest : list read_event)
| RFail (err : error) (rest : list read_event)
| RBlock.

Definition push_back (bs : list byte) (s : list read_event) : list read_event :=
  match bs with
  | [] => s
  | _ => RData bs :: s
  end.

(** [conn.Read(buf)] with [len(buf) = size]: one call returns what has
    arrived, at most [size] bytes; it does not wait for the buffer to
    fill.  A zero-length buffer returns [0, nil] at once. *)
Definition conn_Read (size : nat) (s : list read_event) : read_result :=
  match size with
  | O => ROk [] s
  | _ =>
      match s with
      | [] => RBlock
      | RData bs :: rest => ROk (take size bs) (push_back (drop size bs) rest)
      | RErr err :: rest => RFail err rest
      end
  end.

(** [io.ReadFull(conn, buf)] with [len(buf) = need] and [got] the bytes
    read so far: [Read] is called until the buffer is full; an [EOF] after
    some bytes becomes [ErrUnexpectedEOF]. *)
Fixpoint io_ReadFull (need : nat) (got : list byte) (s : list read_event) : read_result :=
  match need with
  | O => ROk got s
  | _ =>
      match s with
      | [] => RBlock
      | RData bs :: rest =>
          if decide (need ≤ length bs)
          then ROk (got ++ take need bs) (push_back (drop need bs) rest)
          else io_ReadFull (need - length bs) (got ++ bs) rest
      | RErr err :: rest =>
          match got, err with
          | _ :: _, EOF => RFail ErrUnexpectedEOF rest
          | _, _ => RFail err rest
          end
      end
  end.

Inductive length_result : Type :=
| LenOk (messageLength : N) (rest : list read_event)
| LenFail (err : error) (rest : list read_event)
| LenBlock.

(** [binary.Read(conn, binary.LittleEndian, &messageLength)] for a
    [uint16]: two bytes through [io.ReadFull], decoded little-endian. *)
Definition binary_Read_uint16 (s : list read_event) : length_result :=
  match io_ReadFull 2 [] s with
  | ROk [b0; b1] rest => LenOk (le_uint16 b0 b1) rest
  | ROk _ rest => LenFail ErrUnexpectedEOF rest
  | RFail err rest => LenFail err rest
  | RBlock => LenBlock
  end.

(** ** Shared server state *)

Definition conn_id : Type := nat.

(** Modelled from the spec: the [Connection] struct is declared elsewhere
    in the package; a car slot's assigned connection is absent when the
    slot is unoccupied, so the zero value [Connection{}] holds no
    connection. *)
Record Connection : Type := { conn_tcp : option conn_id }.

Definition Connection_zero : Connection := {| conn_tcp := None |}.

(** Modelled from the spec: the [Car] struct is declared elsewhere in the
    package; a car slot is a record of an id, the assigned connection, the
    checksum-verification status, the tyre state and timing fields. *)
Record Car : Type := {
  CarID : N;
  car_Connection : Connection;
  ChecksumVerified : bool;
  Tyres : string;
  LapCount : N;
}.

(** The slot as the read loop leaves it after [car.Connection = Connection{}]. *)
Definition clear_Connection (car : Car) : Car :=
  {| CarID := CarID car;
     car_Connection := Connection_zero;
     ChecksumVerified := ChecksumVerified car;
     Tyres := Tyres car;
     LapCount := LapCount car |}.

(** The empty default state of a slot: the zero value of [Car]. *)
Definition Car_zero : Car :=
  {| CarID := 0%N; car_Connection := Connection_zero;
     ChecksumVerified := false; Tyres := EmptyString; LapCount := 0%N |}.

#[global] Instance Connection_eq_dec : EqDecision Connection.
Proof. solve_decision. Defined.

#[global] Instance Car_eq_dec : EqDecision Car.
Proof. solve_decision. Defined.

(** Modelled from the spec: [ServerState.GetCarByTCPConn] is defined
    elsewhere in the package; it looks a car up by its connection.  The
    result is the slot index (the pointer the Go code gets) with the car. *)
Definition GetCarByTCPConn (conn : conn_id) (cars : list Car) : option (nat * Car) :=
  list_find (λ car, conn_tcp (car_Connection car) = Some conn) cars.

(** ** Message handlers *)

(** The [MessageType] of a frame is its first byte, as a number. *)
Abbreviation MessageType := N (only parsing).

(** What one [OnMessage] call does, as far as the read loop can tell: the
    shared state it leaves, whether it asked for the connection to be
    closed through [closeTCPConnection], and the error it returns. *)
Record handler_result : Type := {
  h_cars : list Car;
  h_close : bool;
  h_err : option error;
}.

(** The [TCPMessageHandler] interface: the two methods [tcp.go] calls. *)
Record TCPMessageHandler : Type := {
  handler_MessageType : MessageType;
  OnMessage : conn_id → list byte → list Car → handler_result;
}.

(** The loop of [initMessageHandlers]:
    [t.messageHandlers[handler.MessageType()] = handler]. *)
Definition initMessageHandlers (hs : list TCPMessageHandler)
  : gmap N TCPMessageHandler :=
  foldl (λ m h, <[handler_MessageType h := h]> m) ∅ hs.

(** ** Traces *)

Inductive log_line : Type :=
| CouldNotAccept (err : error)
| CouldNotSetKeepAlive (err : error)
| CouldNotSetKeepAlivePeriod (err : error)
| CouldNotSetNoDelay (err : error)
| CouldNotClose (err : error)
| CleanlyClosed
| ReadLengthFailed (err : error)
| ReadMessageFailed (err : error)
| HandlerReturnedError (declared : MessageType) (err : error)
| UnknownMessageType (mt : MessageType) (n : nat)
| ClosingListener.

(** What a task does that another party can observe, in order. *)
Inductive event : Type :=
| EvCleanup (conn : conn_id)
| EvClose (conn : conn_id) (res : option error)
| EvRelease (slot : nat)
| EvDispatch (conn : conn_id) (mt : MessageType) (payload : list byte)
| EvLog (line : log_line)
| EvStdout (s : string).

Definition is_cleanup (e : event) : bool :=
  match e with EvCleanup _ => true | _ => false end.

Definition is_dispatch (e : event) : option (MessageType * list byte) :=
  match e with EvDispatch _ mt payload => Some (mt, payload) | _ => None end.

(** ** Connections *)

(** The [tcpConn] struct.  The embedded [net.Conn] is its identity
    [self], whether the socket is still open, and the script of what its
    reads will meet. *)
Record tcpConn : Type := {
  self : conn_id;
  open : bool;
  incoming : list read_event;
  closer : Chan.t;
}.

(** [conn.Close()]: closing a closed socket is a permanent [net.OpError]. *)
Definition conn_Close (c : tcpConn) : tcpConn * option error :=
  ({| self := self c; open := false; incoming := incoming c; closer := closer c |},
   if open c then None else Some (OpError false)).

Definition with_incoming (s : list read_event) (c : tcpConn) : tcpConn :=
  {| self := self c; open := open c; incoming := s; closer := closer c |}.

Definition with_closer (ch : Chan.t) (c : tcpConn) : tcpConn :=
  {| self := self c; open := open c; incoming := incoming c; closer := ch |}.

(** Where the read-loop goroutine of a connection stands. *)
Inductive task_pc : Type :=
| AtSelect        (* at the [select] that opens each round of the [for] *)
| InRead          (* inside a [Read] that never returns: the peer is silent *)
| AtSendCloser    (* at [conn.closer <- struct{}{}] of an error branch *)
| InHandler (declared : MessageType) (err : option error)
                  (* inside [OnMessage], at its [closeTCPConnection(conn)];
                     the handler will return [err] *)
| Returned.       (* the goroutine has returned *)

#[global] Instance task_pc_eq_dec : EqDecision task_pc.
Proof. solve_decision. Defined.

(** One read loop with the state it shares: the car table and the trace. *)
Record world : Type := {
  conn : tcpConn;
  pc : task_pc;
  cars : list Car;
  out : list event;
}.

Inductive outcome : Type :=
| Step (w : world)
| Blocked
| Halted.

Definition emit (es : list event) (w : world) : world :=
  {| conn := conn w; pc := pc w; cars := cars w; out := out w ++ es |}.

Definition goto (p : task_pc) (w : world) : world :=
  {| conn := conn w; pc := p; cars := cars w; out := out w |}.

Definition with_conn (c : tcpConn) (w : world) : world :=
  {| conn := c; pc := pc w; cars := cars w; out := out w |}.

Definition with_cars (cs : list Car) (w : world) : world :=
  {| conn := conn w; pc := pc w; cars := cs; out := out w |}.

(** ** The read loop *)

(** A [return] of the goroutine: the deferred [conn.Close()] runs. *)
Definition task_return (w : world) : world :=
  let '(c, res) := conn_Close (conn w) in
  goto Returned (emit [EvClose (self c) res] (with_conn c w)).

(** The body of [case <-conn.closer], after the token has been received:
    look the car up, close the transport and log the result, clear the
    car's connection, return. *)
Definition cleanup (w : world) : world :=
  let w := emit [EvCleanup (self (conn w))] w in
  let car := GetCarByTCPConn (self (conn w)) (cars w) in
  let '(c, res) := conn_Close (conn w) in
  let line := match res with
              | Some err => CouldNotClose err
              | None => CleanlyClosed
              end in
  let w := emit [EvClose (self c) res; EvLog line] (with_conn c w) in
  let w := match car with
           | Some (slot, _) =>
               emit [EvRelease slot] (with_cars (alter clear_Connection slot (cars w)) w)
           | None => w
           end in
  task_return w.

Inductive read_stage : Type := ReadLength | ReadMessage.

Definition stage_line (stage : read_stage) (err : error) : log_line :=
  match stage with
  | ReadLength => ReadLengthFailed err
  | ReadMessage => ReadMessageFailed err
  end.

(** The two [if err != nil] blocks of the loop, which differ in the log
    line only: a permanent [net.OpError] goes on to send on [closer] and
    [continue]; any other error is logged and the goroutine returns. *)
Definition on_error (stage : read_stage) (err : error) (w : world) : world :=
  if is_permanent_OpError err then goto AtSendCloser w
  else task_return (emit [EvLog (stage_line stage err)] w).

(** Modelled from the spec: [NewPacket] and [Packet.Read] are defined
    elsewhere in the package; reading past the end is a decode failure
    that leaves the target untouched.  [p.Read(&messageType)] on the
    packet over [buf]: the message type (zero when [buf] is empty) and
    what is left for the handler. *)
Definition Packet_Read_MessageType (buf : list byte) : MessageType * list byte :=
  match buf with
  | [] => (0%N, [])
  | b :: payload => (Byte.to_N b, payload)
  end.

Definition newline : string := String (ascii_of_nat 10) EmptyString.

(** How a call that may suspend ends. *)
Inductive call_result : Type :=
| Ret (w : world) (err : option error)
| Suspended (w : world)
| Stuck (w : world).

(** The end of the [if ok] branch of [handleConnection], once [OnMessage]
    has returned [herr]. *)
Definition handler_returned (declared : MessageType) (herr : option error)
    (w : world) : world * option error :=
  match herr with
  | Some err => (emit [EvLog (HandlerReturnedError declared err)] w, Some err)
  | None => (w, None)
  end.

(** [TCP.handleConnection]. *)
Definition handleConnection (messageHandlers : gmap N TCPMessageHandler)
    (messageLength : N) (w : world) : call_result :=
  match conn_Read (N.to_nat messageLength) (incoming (conn w)) with
  | RBlock => Stuck (goto InRead w)
  | RFail err rest => Ret (with_conn (with_incoming rest (conn w)) w) (Some err)
  | ROk buf rest =>
      let w := with_conn (with_incoming rest (conn w)) w in
      let '(messageType, p) := Packet_Read_MessageType buf in
      match messageHandlers !! messageType with
      | Some messageHandler =>
          let r := OnMessage messageHandler (self (conn w)) p (cars w) in
          let w := emit [EvDispatch (self (conn w)) messageType p]
                     (with_cars (h_cars r) w) in
          if h_close r
          then Suspended (goto (InHandler (handler_MessageType messageHandler) (h_err r)) w)
          else let '(w, err) :=
                 handler_returned (handler_MessageType messageHandler) (h_err r) w in
               Ret w err
      | None =>
          Ret (emit [EvLog (UnknownMessageType messageType (length buf));
                     EvStdout (hex buf +:+ newline)] w) None
      end
  end.

(** What the loop does with the result of [handleConnection]. *)
Definition after_handleConnection (err : option error) (w : world) : world :=
  match err with
  | None => goto AtSelect w
  | Some err => on_error ReadMessage err w
  end.

(** One scheduling step of the read-loop goroutine of [Listen]. *)
Definition task_step (messageHandlers : gmap N TCPMessageHandler)
    (w : world) : outcome :=
  match pc w with
  | Returned => Halted
  | InRead => Blocked
  | AtSendCloser =>
      match Chan.send (closer (conn w)) with
      | Some ch => Step (goto AtSelect (with_conn (with_closer ch (conn w)) w))
      | None => Blocked
      end
  | InHandler declared herr =>
      match Chan.send (closer (conn w)) with
      | Some ch =>
          let '(w, err) :=
            handler_returned declared herr (with_conn (with_closer ch (conn w)) w) in
          Step (after_handleConnection err w)
      | None => Blocked
      end
  | AtSelect =>
      match Chan.try_recv (closer (conn w)) with
      | Some ch => Step (cleanup (with_conn (with_closer ch (conn w)) w))
      | None =>
          match binary_Read_uint16 (incoming (conn w)) with
          | LenBlock => Step (goto InRead w)
          | LenFail err rest =>
              Step (on_error ReadLength err (with_conn (with_incoming rest (conn w)) w))
          | LenOk messageLength rest =>
              match handleConnection messageHandlers messageLength
                      (with_conn (with_incoming rest (conn w)) w) with
              | Stuck w => Step w
              | Suspended w => Step w
              | Ret w err => Step (after_handleConnection err w)
              end
          end
      end
  end.

(** The goroutine left alone for at most [fuel] steps. *)
Fixpoint run (messageHandlers : gmap N TCPMessageHandler) (fuel : nat)
    (w : world) : world :=
  match fuel with
  | O => w
  | S fuel =>
      match task_step messageHandlers w with
      | Step w' => run messageHandlers fuel w'
      | Blocked | Halted => w
      end
  end.

(** The goroutine as [Listen] starts it for a fresh [tcpConn]. *)
Definition spawn (id : conn_id) (script : list read_event) (cs : list Car) : world :=
  {| conn := {| self := id; open := true; incoming := script; closer := Chan.make 1 |};
     pc := AtSelect; cars := cs; out := [] |}.

(** ** Closing a connection from outside *)

(** A [net.Conn] value: a [*tcpConn] or some other implementation. *)
Inductive net_Conn : Type :=
| IsTcpConn (c : tcpConn)
| OtherConn (id : conn_id).

(** [closeTCPConnection]: [None] when the send on [closer] blocks. *)
Definition closeTCPConnection (conn : net_Conn) : option net_Conn :=
  match conn with
  | IsTcpConn c =>
      match Chan.send (closer c) with
      | Some ch => Some (IsTcpConn (with_closer ch c))
      | None => None
      end
  | OtherConn _ => Some conn
  end.

(** Modelled from the spec: [Packet.Write] and [Packet.WriteTCP] are
    defined elsewhere in the package; encoding emits a 2-byte
    little-endian length prefix covering the message-type byte and the
    payload.  The frame of a packet that holds [errorMessage] alone. *)
Definition error_frame (errorMessage : byte) : list byte :=
  put_le_uint16 1 ++ [errorMessage].

Inductive close_result : Type :=
| CloseReturned (conn : net_Conn) (sent : list (list byte)) (err : option error)
| CloseBlocked (sent : list (list byte)).

(** [closeTCPConnectionWithError].  [write_err] is what the write of the
    frame to the connection returns. *)
Definition closeTCPConnectionWithError (conn : net_Conn) (errorMessage : byte)
    (write_err : option error) : close_result :=
  match write_err with
  | Some err => CloseReturned conn [] (Some err)
  | None =>
      match closeTCPConnection conn with
      | Some conn' => CloseReturned conn' [error_frame errorMessage] None
      | None => CloseBlocked [error_frame errorMessage]
      end
  end.

(** ** Interleavings on one connection *)

(** What may happen next around one connection: its read loop takes a
    step, another goroutine calls [closeTCPConnection] on it, or another
    goroutine rewrites the car table. *)
Inductive action : Type :=
| Owner
| ExternalClose
| Environment (cs : list Car).

Definition act (messageHandlers : gmap N TCPMessageHandler) (a : action)
    (w : world) : world :=
  match a with
  | Owner =>
      match task_step messageHandlers w with
      | Step w' => w'
      | Blocked | Halted => w
      end
  | ExternalClose =>
      match closeTCPConnection (IsTcpConn (conn w)) with
      | Some (IsTcpConn c) => with_conn c w
      | _ => w
      end
  | Environment cs => with_cars cs w
  end.

Definition exec (messageHandlers : gmap N TCPMessageHandler)
    (sched : list action) (w : world) : world :=
  foldl (λ w a, act messageHandlers a w) w sched.

(** A schedule cut at the next step of the read loop: what the other
    parties do before it, and what is scheduled after it. *)
Fixpoint next_owner (sched : list action) : option (list action * list action) :=
  match sched with
  | [] => None
  | Owner :: post => Some ([], post)
  | a :: sched =>
      match next_owner sched with
      | Some (pre, post) => Some (a :: pre, post)
      | None => None
      end
  end.

Definition is_external_close (a : action) : bool :=
  match a with ExternalClose => true | _ => false end.

Definition cleanups (w : world) : nat :=
  length (filter (λ e, is_cleanup e = true) (out w)).

Definition dispatched (w : world) : list (MessageType * list byte) :=
  omap is_dispatch (out w).

(** ** The listener *)

Inductive accept_pc : Type :=
| Accepting
| AcceptReturned.

(** The [TCP] struct with what [Listen] has started: the accept loop, the
    read loops of the accepted connections, the shared car table and the
    log. *)
Record TCP : Type := {
  port : N;
  messageHandlers : gmap N TCPMessageHandler;
  listener : bool;
  closed : Chan.t;
  accept_loop : accept_pc;
  conns : list (tcpConn * task_pc);
  next_conn : conn_id;
  state : list Car;
  logger : list event;
}.

(** [NewTCP] followed by a successful [Listen]. *)
Definition NewTCP (port : N) (hs : list TCPMessageHandler) (cs : list Car) : TCP :=
  {| port := port;
     messageHandlers := initMessageHandlers hs;
     listener := true;
     closed := Chan.make 1;
     accept_loop := Accepting;
     conns := [];
     next_conn := 0;
     state := cs;
     logger := [] |}.

(** What [AcceptTCP] and the three socket options give for one round of
    the accept loop, when the listener is open. *)
Inductive accept_result : Type :=
| Accepted (script : list read_event)
    (keepalive period nodelay : option error)
| AcceptFailed (err : error).

(** [t.listener.AcceptTCP()]: on a closed listener it fails. *)
Definition AcceptTCP (t : TCP) (env : accept_result) : accept_result :=
  if listener t then env else AcceptFailed (OpError false).

Definition log_if (mk : error → log_line) (res : option error) : list event :=
  match res with
  | Some err => [EvLog (mk err)]
  | None => []
  end.

(** One round of the accept loop of [Listen]. *)
Definition accept_step (env : accept_result) (t : TCP) : TCP :=
  match accept_loop t with
  | AcceptReturned => t
  | Accepting =>
      match AcceptTCP t env with
      | AcceptFailed err =>
          match Chan.try_recv (closed t) with
          | Some ch =>
              {| port := port t; messageHandlers := messageHandlers t;
                 listener := listener t; closed := ch;
                 accept_loop := AcceptReturned; conns := conns t;
                 next_conn := next_conn t; state := state t;
                 logger := logger t |}
          | None =>
              {| port := port t; messageHandlers := messageHandlers t;
                 listener := listener t; closed := closed t;
                 accept_loop := Accepting; conns := conns t;
                 next_conn := next_conn t; state := state t;
                 logger := logger t ++ [EvLog (CouldNotAccept err)] |}
          end
      | Accepted script keepalive period nodelay =>
          let c := {| self := next_conn t; open := true; incoming := script;
                      closer := Chan.make 1 |} in
          {| port := port t; messageHandlers := messageHandlers t;
             listener := listener t; closed := closed t;
             accept_loop := Accepting; conns := conns t ++ [(c, AtSelect)];
             next_conn := S (next_conn t); state := state t;
             logger := logger t ++ log_if CouldNotSetKeepAlive keepalive
                         ++ log_if CouldNotSetKeepAlivePeriod period
                         ++ log_if CouldNotSetNoDelay nodelay |}
      end
  end.

(** [TCP.Close]: [None] when the send on [closed] blocks; otherwise the
    server with the error of [t.listener.Close()]. *)
Definition Close (t : TCP) : option (TCP * option error) :=
  match Chan.send (closed t) with
  | None => None
  | Some ch =>
      Some ({| port := port t; messageHandlers := messageHandlers t;
               listener := false; closed := ch;
               accept_loop := accept_loop t; conns := conns t;
               next_conn := next_conn t; state := state t;
               logger := logger t ++ [EvLog ClosingListener] |},
            if listener t then None else Some (OpError false))
  end.

(** One step of the read loop of the [i]-th connection of the server. *)
Definition conn_step (i : nat) (t : TCP) : TCP :=
  match conns t !! i with
  | None => t
  | Some (c, p) =>
      match task_step (messageHandlers t)
              {| conn := c; pc := p; cars := state t; out := logger t |} with
      | Step w =>
          {| port := port t; messageHandlers := messageHandlers t;
             listener := listener t; closed := closed t;
             accept_loop := accept_loop t;
             conns := <[i := (conn w, pc w)]> (conns t);
             next_conn := next_conn t; state := cars w; logger := out w |}
      | Blocked | Halted => t
      end
  end.

(** ** The Resolver *)

Module Resolver.

(** Pointers to the instances the constructors allocate. *)
Definition ptr : Type := nat.

(** The pointer and interface fields of the [Resolver] struct. *)
Inductive field : Type :=
| store | templateLoader
| raceManager | carManager | trackManager | championshipManager
| accountManager | discordManager | notificationManager
| scheduledRacesManager | raceWeekendManager | blockListManager
| viewRenderer | serverProcess | raceControl | raceControlHub
| contentManagerWrapper | acsrClient | udpPluginAdapter
| baseHandler | quickRaceHandler | customRaceHandler
| championshipsHandler | accountHandler | auditLogHandler | carsHandler
| tracksHandler | weatherHandler | penaltiesHandler | penaltiesManager
| resultsHandler | scheduledRacesHandler | contentUploadHandler
| raceControlHandler | serverAdministrationHandler | raceWeekendHandler
| customChecksumHandler | strackerHandler | healthCheck
| kissMyRankHandler | realPenaltyHandler.

#[global] Instance field_eq_dec : EqDecision field.
Proof. solve_decision. Defined.

(** One call of a constructor: what was built, where, from which
    pointer arguments (in the order of the call). *)
Record construction : Type := {
  built : field;
  at_ptr : ptr;
  from : list (option ptr);
}.

(** A [*Resolver] with the heap behind it: the fields ([None] is [nil]),
    the next free pointer, the constructor calls so far, the plugins set
    on the server process and the goroutines started. *)
Record t : Type := {
  fields : field → option ptr;
  reloadTemplates : bool;
  next : ptr;
  constructions : list construction;
  plugins : list (option ptr * option ptr);
  goroutines : list ptr;
}.

(** Code that runs against a resolver; [None] is a computation cut off
    by the step bound of [resolve]. *)
Definition M (A : Type) : Type := t → option (A * t).

#[global] Instance M_ret : MRet M := λ A a r, Some (a, r).
#[global] Instance M_bind : MBind M := λ A B k c r,
  match c r with
  | Some (a, r') => k a r'
  | None => None
  end.

Definition get (f : field) : M (option ptr) := λ r, Some (fields r f, r).

(** [r.f = p] for a pointer [p] fresh from a constructor. *)
Definition set (f : field) (p : ptr) : M unit := λ r,
  Some (tt, {| fields := <[f := Some p]> (fields r);
               reloadTemplates := reloadTemplates r;
               next := next r;
               constructions := constructions r;
               plugins := plugins r;
               goroutines := goroutines r |}).

(** A constructor [New...(args)]: a fresh instance.  Arguments that are
    not pointers or interfaces (configuration flags, empty struct
    values) are left out of [args]. *)
Definition New (what : field) (args : list (option ptr)) : M ptr := λ r,
  Some (next r,
        {| fields := fields r;
           reloadTemplates := reloadTemplates r;
           next := S (next r);
           constructions :=
             constructions r ++ [{| built := what; at_ptr := next r; from := args |}];
           plugins := plugins r;
           goroutines := goroutines r |}).

(** [sp.SetPlugin(plugin)]. *)
Definition SetPlugin (sp plugin : option ptr) : M unit := λ r,
  Some (tt, {| fields := fields r;
               reloadTemplates := reloadTemplates r;
               next := next r;
               constructions := constructions r;
               plugins := plugins r ++ [(sp, plugin)];
               goroutines := goroutines r |}).

(** [go panicCapture(hub.run)]. *)
Definition go_run (hub : ptr) : M unit := λ r,
  Some (tt, {| fields := fields r;
               reloadTemplates := reloadTemplates r;
               next := next r;
               constructions := constructions r;
               plugins := plugins r;
               goroutines := goroutines r ++ [hub] |}).

Definition out_of_steps {A : Type} : M A := λ _, None.

(** The shape every resolve method has:
    [if r.guard != nil { return r.target }; build; return r.target]. *)
Definition memo (guard target : field) (build : M unit) : M (option ptr) :=
  g ← get guard;
  match g with
  | Some _ => get target
  | None => build ;; get target
  end.

(** The resolve methods of [*Resolver]. *)
Inductive method : Type :=
| ResolveStore
| resolveServerProcess | resolveUDPPluginAdapter
| resolveContentManagerWrapper | resolveRaceManager | resolveBaseHandler
| resolveCustomRaceHandler | resolveAccountManager | resolveAccountHandler
| resolveQuickRaceHandler | resolveAuditLogHandler | resolveCarManager
| resolveCarsHandler | resolveChampionshipManager
| resolveChampionshipsHandler | resolveTrackManager | resolveTracksHandler
| resolveWeatherHandler | resolvePenaltiesHandler | resolvePenaltiesManager
| resolveResultsHandler | resolveScheduledRacesManager
| resolveScheduledRacesHandler | resolveServerAdministrationHandler
| resolveBlockListManager | resolveContentUploadHandler
| resolveRaceControlHub | ResolveRaceControl | resolveRaceControlHandler
| resolveRaceWeekendManager | resolveRaceWeekendHandler
| resolveCustomChecksumHandler | resolveDiscordManager
| resolveNotificationManager | resolveStrackerHandler | resolveHealthCheck
| resolveKissMyRankHandler | resolveRealPenaltyHandler.

#[global] Instance method_eq_dec : EqDecision method.
Proof. solve_decision. Defined.

(** The resolve methods, one case each, with [call] for a method call
    on the same resolver.  Arguments are evaluated left to right, as Go
    does.  [PerformanceMode] is [config.Server.PerformanceMode]. *)
Fixpoint resolve (PerformanceMode : bool) (fuel : nat) (m : method)
    : M (option ptr) :=
  match fuel with
  | O => out_of_steps
  | S fuel =>
      let call := resolve PerformanceMode fuel in
      match m with
      | ResolveStore => get store
      | resolveServerProcess =>
          memo serverProcess serverProcess (
            a1 ← call ResolveStore;
            a2 ← call resolveContentManagerWrapper;
            p ← New serverProcess [a1; a2];
            set serverProcess p;;
            sp ← get serverProcess;
            plugin ← call resolveUDPPluginAdapter;
            SetPlugin sp plugin)
      | resolveUDPPluginAdapter =>
          memo udpPluginAdapter udpPluginAdapter (
            a1 ← call resolveRaceManager;
            a2 ← call ResolveRaceControl;
            a3 ← call resolveChampionshipManager;
            a4 ← call resolveRaceWeekendManager;
            a5 ← call resolveContentManagerWrapper;
            p ← New udpPluginAdapter [a1; a2; a3; a4; a5];
            set udpPluginAdapter p)
      | resolveContentManagerWrapper =>
          memo contentManagerWrapper contentManagerWrapper (
            a1 ← call ResolveStore;
            a2 ← call resolveCarManager;
            a3 ← call resolveTrackManager;
            p ← New contentManagerWrapper [a1; a2; a3];
            set contentManagerWrapper p)
      | resolveRaceManager =>
          memo raceManager raceManager (
            a1 ← get store;
            a2 ← call resolveServerProcess;
            a3 ← call resolveCarManager;
            a4 ← call resolveTrackManager;
            a5 ← call resolveNotificationManager;
            a6 ← call ResolveRaceControl;
            p ← New raceManager [a1; a2; a3; a4; a5; a6];
            set raceManager p)
      | resolveBaseHandler =>
          memo baseHandler baseHandler (
            a1 ← get viewRenderer;
            p ← New baseHandler [a1];
            set baseHandler p)
      | resolveCustomRaceHandler =>
          memo customRaceHandler customRaceHandler (
            a1 ← call resolveBaseHandler;
            a2 ← call resolveRaceManager;
            a3 ← call ResolveStore;
            a4 ← call resolveChampionshipManager;
            a5 ← call resolveRaceWeekendManager;
            p ← New customRaceHandler [a1; a2; a3; a4; a5];
            set customRaceHandler p)
      | resolveAccountManager =>
          memo accountManager accountManager (
            a1 ← get store;
            p ← New accountManager [a1];
            set accountManager p)
      | resolveAccountHandler =>
          memo accountHandler accountHandler (
            a1 ← call resolveBaseHandler;
            a2 ← get store;
            a3 ← call resolveAccountManager;
            p ← New accountHandler [a1; a2; a3];
            set accountHandler p)
      | resolveQuickRaceHandler =>
          memo quickRaceHandler quickRaceHandler (
            a1 ← call resolveBaseHandler;
            a2 ← call resolveRaceManager;
            p ← New quickRaceHandler [a1; a2];
            set quickRaceHandler p)
      | resolveAuditLogHandler =>
          memo auditLogHandler auditLogHandler (
            a1 ← call resolveBaseHandler;
            a2 ← get store;
            p ← New auditLogHandler [a1; a2];
            set auditLogHandler p)
      | resolveCarManager =>
          memo carManager carManager (
            a1 ← call resolveTrackManager;
            p ← New carManager [a1];
            set carManager p)
      | resolveCarsHandler =>
          memo carsHandler carsHandler (
            a1 ← call resolveBaseHandler;
            a2 ← call resolveCarManager;
            p ← New carsHandler [a1; a2];
            set carsHandler p)
      | resolveChampionshipManager =>
          memo championshipManager championshipManager (
            a1 ← call resolveRaceManager;
            a2 ← get acsrClient;
            p ← New championshipManager [a1; a2];
            set championshipManager p)
      | resolveChampionshipsHandler =>
          memo championshipsHandler championshipsHandler (
            a1 ← call resolveBaseHandler;
            a2 ← call resolveChampionshipManager;
            p ← New championshipsHandler [a1; a2];
            set championshipsHandler p)
      | resolveTrackManager =>
          memo trackManager trackManager (
            p ← New trackManager [];
            set trackManager p)
      | resolveTracksHandler =>
          memo tracksHandler tracksHandler (
            a1 ← call resolveBaseHandler;
            a2 ← call resolveTrackManager;
            p ← New tracksHandler [a1; a2];
            set tracksHandler p)
      | resolveWeatherHandler =>
          memo weatherHandler weatherHandler (
            a1 ← call resolveBaseHandler;
            p ← New weatherHandler [a1];
            set weatherHandler p)
      | resolvePenaltiesHandler =>
          memo penaltiesHandler penaltiesHandler (
            a1 ← call resolveBaseHandler;
            a2 ← call resolvePenaltiesManager;
            p ← New penaltiesHandler [a1; a2];
            set penaltiesHandler p)
      | resolvePenaltiesManager =>
          memo penaltiesHandler penaltiesManager (
            a1 ← call ResolveStore;
            p ← New penaltiesManager [a1];
            set penaltiesManager p)
      | resolveResultsHandler =>
          memo resultsHandler resultsHandler (
            a1 ← call resolveBaseHandler;
            a2 ← call ResolveStore;
            p ← New resultsHandler [a1; a2];
            set resultsHandler p)
      | resolveScheduledRacesManager =>
          memo scheduledRacesManager scheduledRacesManager (
            a1 ← call ResolveStore;
            p ← New scheduledRacesManager [a1];
            set scheduledRacesManager p)
      | resolveScheduledRacesHandler =>
          memo scheduledRacesHandler scheduledRacesHandler (
            a1 ← call resolveBaseHandler;
            a2 ← call resolveScheduledRacesManager;
            p ← New scheduledRacesHandler [a1; a2];
            set scheduledRacesHandler p)
      | resolveServerAdministrationHandler =>
          memo serverAdministrationHandler serverAdministrationHandler (
            a1 ← call resolveBaseHandler;
            a2 ← call ResolveStore;
            a3 ← call resolveRaceManager;
            a4 ← call resolveChampionshipManager;
            a5 ← call resolveRaceWeekendManager;
            a6 ← call resolveBlockListManager;
            a7 ← call resolveServerProcess;
            a8 ← get acsrClient;
            p ← New serverAdministrationHandler [a1; a2; a3; a4; a5; a6; a7; a8];
            set serverAdministrationHandler p)
      | resolveBlockListManager =>
          memo blockListManager blockListManager (
            p ← New blockListManager [];
            set blockListManager p)
      | resolveContentUploadHandler =>
          memo contentUploadHandler contentUploadHandler (
            a1 ← call resolveBaseHandler;
            a2 ← call resolveCarManager;
            a3 ← call resolveTrackManager;
            p ← New contentUploadHandler [a1; a2; a3];
            set contentUploadHandler p)
      | resolveRaceControlHub =>
          memo raceControlHub raceControlHub (
            p ← New raceControlHub [];
            set raceControlHub p;;
            go_run p)
      | ResolveRaceControl =>
          memo raceControl raceControl (
            a1 ← call resolveRaceControlHub;
            a2 ← call resolveServerProcess;
            a3 ← call ResolveStore;
            a4 ← call resolvePenaltiesManager;
            p ← New raceControl [a1; a2; a3; a4];
            set raceControl p)
      | resolveRaceControlHandler =>
          if PerformanceMode then mret None
          else
            memo raceControlHandler raceControlHandler (
              a1 ← call resolveBaseHandler;
              a2 ← call ResolveStore;
              a3 ← call resolveRaceManager;
              a4 ← call ResolveRaceControl;
              a5 ← call resolveRaceControlHub;
              a6 ← call resolveServerProcess;
              p ← New raceControlHandler [a1; a2; a3; a4; a5; a6];
              set raceControlHandler p)
      | resolveRaceWeekendManager =>
          memo raceWeekendManager raceWeekendManager (
            a1 ← call resolveRaceManager;
            a2 ← call resolveChampionshipManager;
            a3 ← call ResolveStore;
            a4 ← call resolveServerProcess;
            a5 ← call resolveNotificationManager;
            a6 ← get acsrClient;
            a7 ← call resolveCarManager;
            p ← New raceWeekendManager [a1; a2; a3; a4; a5; a6; a7];
            set raceWeekendManager p)
      | resolveRaceWeekendHandler =>
          memo raceWeekendHandler raceWeekendHandler (
            a1 ← call resolveBaseHandler;
            a2 ← call resolveRaceWeekendManager;
            p ← New raceWeekendHandler [a1; a2];
            set raceWeekendHandler p)
      | resolveCustomChecksumHandler =>
          memo customChecksumHandler customChecksumHandler (
            a1 ← call resolveBaseHandler;
            a2 ← call ResolveStore;
            p ← New customChecksumHandler [a1; a2];
            set customChecksumHandler p)
      | resolveDiscordManager =>
          memo discordManager discordManager (
            a1 ← get store;
            a2 ← call resolveScheduledRacesManager;
            p ← New discordManager [a1; a2];
            set discordManager p)
      | resolveNotificationManager =>
          memo notificationManager notificationManager (
            a1 ← call resolveDiscordManager;
            a2 ← call resolveCarManager;
            a3 ← get store;
            p ← New notificationManager [a1; a2; a3];
            set notificationManager p)
      | resolveStrackerHandler =>
          memo strackerHandler strackerHandler (
            a1 ← call resolveBaseHandler;
            a2 ← call ResolveStore;
            p ← New strackerHandler [a1; a2];
            set strackerHandler p)
      | resolveHealthCheck =>
          memo healthCheck healthCheck (
            a1 ← call ResolveRaceControl;
            a2 ← call ResolveStore;
            a3 ← call resolveServerProcess;
            p ← New healthCheck [a1; a2; a3];
            set healthCheck p)
      | resolveKissMyRankHandler =>
          memo kissMyRankHandler kissMyRankHandler (
            a1 ← call resolveBaseHandler;
            a2 ← call ResolveStore;
            p ← New kissMyRankHandler [a1; a2];
            set kissMyRankHandler p)
      | resolveRealPenaltyHandler =>
          memo realPenaltyHandler realPenaltyHandler (
            a1 ← call resolveBaseHandler;
            a2 ← call ResolveStore;
            p ← New realPenaltyHandler [a1; a2];
            set realPenaltyHandler p)
      end
  end.

(** The handlers [ResolveRouter] resolves, in the order of its call of
    [Router]. *)
Definition router_methods : list method :=
  [resolveQuickRaceHandler; resolveCustomRaceHandler;
   resolveChampionshipsHandler; resolveAccountHandler;
   resolveAuditLogHandler; resolveCarsHandler; resolveTracksHandler;
   resolveWeatherHandler; resolvePenaltiesHandler; resolveResultsHandler;
   resolveContentUploadHandler; resolveServerAdministrationHandler;
   resolveRaceControlHandler; resolveScheduledRacesHandler;
   resolveRaceWeekendHandler; resolveCustomChecksumHandler;
   resolveStrackerHandler; resolveHealthCheck; resolveKissMyRankHandler;
   resolveRealPenaltyHandler].

Fixpoint resolve_all (PerformanceMode : bool) (fuel : nat)
    (ms : list method) : M (list (option ptr)) :=
  match ms with
  | [] => mret []
  | m :: ms =>
      a ← resolve PerformanceMode fuel m;
      rest ← resolve_all PerformanceMode fuel ms;
      mret (a :: rest)
  end.

(** [ResolveRouter]: the arguments handed to [Router]. *)
Definition ResolveRouter (PerformanceMode : bool) (fuel : nat)
    : M (list (option ptr)) :=
  resolve_all PerformanceMode fuel router_methods.

(** The struct literal of [NewResolver], then [initACSRClient] and
    [initViewRenderer] when neither fails: pointer 0 is the template
    loader, pointer 1 the store. *)
Definition literal (reload : bool) : t :=
  {| fields := <[templateLoader := Some 0]> (<[store := Some 1]> (λ _, None));
     reloadTemplates := reload;
     next := 2;
     constructions := [];
     plugins := [];
     goroutines := [] |}.

Definition initACSRClient : M unit :=
  p ← New acsrClient [];
  set acsrClient p.

Definition initViewRenderer (PerformanceMode : bool) (fuel : nat) : M unit :=
  g ← get viewRenderer;
  match g with
  | Some _ => mret tt
  | None =>
      a1 ← get templateLoader;
      a2 ← get store;
      a3 ← resolve PerformanceMode fuel resolveServerProcess;
      p ← New viewRenderer [a1; a2; a3];
      set viewRenderer p
  end.

Definition NewResolver (PerformanceMode : bool) (fuel : nat) (reload : bool)
    : option t :=
  snd <$> (initACSRClient ;; initViewRenderer PerformanceMode fuel) (literal reload).

(** The constructor calls that built a [what]. *)
Definition built_as (what : field) (r : t) : list construction :=
  filter (λ c, built c = what) (constructions r).

(** A computation that leaves every field that was set, set. *)
Definition keeps_fields {A : Type} (c : M A) : Prop :=
  ∀ r a r', c r = Some (a, r') →
    ∀ f, is_Some (fields r f) → is_Some (fields r' f).

(** A computation after which field [f] is set. *)
Definition establishes {A : Type} (f : field) (c : M A) : Prop :=
  ∀ r a r', c r = Some (a, r') → is_Some (fields r' f).

(** The methods that guard on the field they fill: all but
    [resolvePenaltiesManager]; [ResolveStore] has no guard, and
    [resolveRaceControlHandler] has one more [return] before it. *)
Definition memoised_on (m : method) : option field :=
  match m with
  | ResolveStore => None
  | resolveServerProcess => Some serverProcess
  | resolveUDPPluginAdapter => Some udpPluginAdapter
  | resolveContentManagerWrapper => Some contentManagerWrapper
  | resolveRaceManager => Some raceManager
  | resolveBaseHandler => Some baseHandler
  | resolveCustomRaceHandler => Some customRaceHandler
  | resolveAccountManager => Some accountManager
  | resolveAccountHandler => Some accountHandler
  | resolveQuickRaceHandler => Some quickRaceHandler
  | resolveAuditLogHandler => Some auditLogHandler
  | resolveCarManager => Some carManager
  | resolveCarsHandler => Some carsHandler
  | resolveChampionshipManager => Some championshipManager
  | resolveChampionshipsHandler => Some championshipsHandler
  | resolveTrackManager => Some trackManager
  | resolveTracksHandler => Some tracksHandler
  | resolveWeatherHandler => Some weatherHandler
  | resolvePenaltiesHandler => Some penaltiesHandler
  | resolvePenaltiesManager => None
  | resolveResultsHandler => Some resultsHandler
  | resolveScheduledRacesManager => Some scheduledRacesManager
  | resolveScheduledRacesHandler => Some scheduledRacesHandler
  | resolveServerAdministrationHandler => Some serverAdministrationHandler
  | resolveBlockListManager => Some blockListManager
  | resolveContentUploadHandler => Some contentUploadHandler
  | resolveRaceControlHub => Some raceControlHub
  | ResolveRaceControl => Some raceControl
  | resolveRaceControlHandler => Some raceControlHandler
  | resolveRaceWeekendManager => Some raceWeekendManager
  | resolveRaceWeekendHandler => Some raceWeekendHandler
  | resolveCustomChecksumHandler => Some customChecksumHandler
  | resolveDiscordManager => Some discordManager
  | resolveNotificationManager => Some notificationManager
  | resolveStrackerHandler => Some strackerHandler
  | resolveHealthCheck => Some healthCheck
  | resolveKissMyRankHandler => Some kissMyRankHandler
  | resolveRealPenaltyHandler => Some realPenaltyHandler
  end.

(** [c'] does whatever [c] does, and perhaps more where [c] is cut off. *)
Definition extends {A : Type} (c c' : M A) : Prop :=
  ∀ r x, c r = Some x → c' r = Some x.

(** [c] started on a resolver whose fields satisfy [P] runs to its end and
    leaves fields that satisfy [Q]. *)
Definition total {A : Type} (P : (field → option ptr) → Prop) (c : M A)
    (Q : (field → option ptr) → Prop) : Prop :=
  ∀ r, P (fields r) → ∃ a r', c r = Some (a, r') ∧ Q (fields r').

(** The server process has been built. *)
Definition sp_set (fs : field → option ptr) : Prop := is_Some (fs serverProcess).

Definition any_fields (fs : field → option ptr) : Prop := True.

(** Steps that suffice for every resolve method on every resolver. *)
Definition enough_steps : nat := 14.

(** [initACSRClient], given what [store.LoadServerOptions()] returns. *)
Definition initACSRClient_checked (load : option error) : M (option error) :=
  match load with
  | Some err => mret (Some err)
  | None =>
      p ← New acsrClient [];
      set acsrClient p;;
      mret None
  end.

(** [initViewRenderer], given the error [NewRenderer] returns. *)
Definition initViewRenderer_checked (PerformanceMode : bool) (fuel : nat)
    (render : option error) : M (option error) :=
  g ← get viewRenderer;
  match g with
  | Some _ => mret None
  | None =>
      a1 ← get templateLoader;
      a2 ← get store;
      a3 ← resolve PerformanceMode fuel resolveServerProcess;
      match render with
      | Some err => mret (Some err)
      | None =>
          p ← New viewRenderer [a1; a2; a3];
          set viewRenderer p;;
          mret None
      end
  end.

(** [NewResolver] with its two error returns.  On an error the caller gets
    [nil]; [abandoned] is the resolver that was being built, with what had
    been constructed and started by then. *)
Inductive NewResolver_result : Type :=
| Built (r : t)
| Failed (err : error) (abandoned : t).

Definition NewResolver_checked (PerformanceMode : bool) (fuel : nat)
    (reload : bool) (load render : option error) : option NewResolver_result :=
  match initACSRClient_checked load (literal reload) with
  | None => None
  | Some (Some err, r) => Some (Failed err r)
  | Some (None, r) =>
      match initViewRenderer_checked PerformanceMode fuel render r with
      | None => None
      | Some (Some err, r) => Some (Failed err r)
      | Some (None, r) => Some (Built r)
      end
  end.

(** How many instances of each kind have been constructed. *)
Definition count_built (what : field) (r : t) : nat :=
  length (built_as what r).

(** The fields that hold a component some resolve method constructs. *)
Definition components : list field :=
  [raceManager; carManager; trackManager; championshipManager;
   accountManager; discordManager; notificationManager;
   scheduledRacesManager; raceWeekendManager; blockListManager;
   serverProcess; raceControl; raceControlHub; contentManagerWrapper;
   udpPluginAdapter; baseHandler; quickRaceHandler; customRaceHandler;
   championshipsHandler; accountHandler; auditLogHandler; carsHandler;
   tracksHandler; weatherHandler; penaltiesHandler; penaltiesManager;
   resultsHandler; scheduledRacesHandler; contentUploadHandler;
   raceControlHandler; serverAdministrationHandler; raceWeekendHandler;
   customChecksumHandler; strackerHandler; healthCheck; kissMyRankHandler;
   realPenaltyHandler].

(** The depth of the calls of a method on a resolver whose server process
    is built: one more than the deepest method it calls;
    [resolveServerProcess] then returns at once. *)
Definition level (m : method) : nat :=
  match m with
  | ResolveStore | resolveServerProcess | resolveBaseHandler
  | resolveAccountManager | resolveTrackManager | resolveBlockListManager
  | resolveRaceControlHub => 1
  | resolvePenaltiesManager | resolveScheduledRacesManager | resolveCarManager
  | resolveAccountHandler | resolveAuditLogHandler | resolveTracksHandler
  | resolveWeatherHandler | resolveResultsHandler
  | resolveCustomChecksumHandler | resolveStrackerHandler
  | resolveKissMyRankHandler | resolveRealPenaltyHandler => 2
  | resolveContentManagerWrapper | resolveDiscordManager | ResolveRaceControl
  | resolveCarsHandler | resolvePenaltiesHandler
  | resolveScheduledRacesHandler | resolveContentUploadHandler => 3
  | resolveNotificationManager | resolveHealthCheck => 4
  | resolveRaceManager => 5
  | resolveChampionshipManager | resolveQuickRaceHandler
  | resolveRaceControlHandler => 6
  | resolveRaceWeekendManager | resolveChampionshipsHandler => 7
  | resolveUDPPluginAdapter | resolveCustomRaceHandler
  | resolveServerAdministrationHandler | resolveRaceWeekendHandler => 8
  end.

(** The depth of the calls of a method on any resolver: as [level], but
    with [resolveServerProcess] as deep as its body, which calls
    [resolveUDPPluginAdapter] once the server process is built. *)
Definition depth (m : method) : nat :=
  match m with
  | ResolveStore | resolveBaseHandler | resolveAccountManager
  | resolveTrackManager | resolveBlockListManager
  | resolveRaceControlHub => 1
  | resolvePenaltiesManager | resolveScheduledRacesManager | resolveCarManager
  | resolveAccountHandler | resolveAuditLogHandler | resolveTracksHandler
  | resolveWeatherHandler | resolveResultsHandler
  | resolveCustomChecksumHandler | resolveStrackerHandler
  | resolveKissMyRankHandler | resolveRealPenaltyHandler => 2
  | resolveContentManagerWrapper | resolveDiscordManager
  | resolveCarsHandler | resolvePenaltiesHandler
  | resolveScheduledRacesHandler | resolveContentUploadHandler => 3
  | resolveNotificationManager => 4
  | resolveServerProcess => 9
  | ResolveRaceControl => 10
  | resolveRaceManager | resolveHealthCheck => 11
  | resolveChampionshipManager | resolveQuickRaceHandler
  | resolveRaceControlHandler => 12
  | resolveRaceWeekendManager | resolveChampionshipsHandler => 13
  | resolveUDPPluginAdapter | resolveCustomRaceHandler
  | resolveServerAdministrationHandler | resolveRaceWeekendHandler => 14
  end.

(** A computation that leaves field [f] alone when it is set. *)
Definition leaves_set (f : field) {A : Type} (c : M A) : Prop :=
  ∀ r a r', c r = Some (a, r') → is_Some (fields r f) → fields r' f = fields r f.

(** How many instances of [f] the wired application is to have: one of
    each, none of the race control handler in performance mode, and, the
    guard of [resolvePenaltiesManager] being what it is, two penalties
    managers. *)
Definition wired_instances (PerformanceMode : bool) (f : field) : nat :=
  match f with
  | penaltiesManager => 2
  | raceControlHandler => if PerformanceMode then 0 else 1
  | _ => 1
  end.

(** The positions of the [nil] arguments in a call. *)
Definition nil_positions (args : list (option ptr)) : list nat :=
  omap (λ ia : nat * option ptr,
          match ia.2 with
          | None => Some ia.1
          | Some _ => None
          end) (imap pair args).

(** The wiring of the application, checked by running it. *)
Definition wiring_check (PerformanceMode : bool) (fuel : nat) (reload : bool)
    : bool :=
  match NewResolver_checked PerformanceMode fuel reload None None with
  | Some (Built r) =>
      match ResolveRouter PerformanceMode fuel r with
      | Some (args, r') =>
          bool_decide (length args = 20)
          && bool_decide (nil_positions args = if PerformanceMode then [12] else [])
          && forallb (λ f, bool_decide
                             (count_built f r' = wired_instances PerformanceMode f))
               components
      | None => false
      end
  | _ => false
  end.

End Resolver.

(** ** The wire format and sample handlers *)

(** Modelled from the spec: a frame on the wire is a 2-byte little-endian
    total length, the 1-byte message type and the payload; the length
    covers the type byte and the payload. *)
Definition frame (f : byte * list byte) : list byte :=
  put_le_uint16 (N.of_nat (S (length f.2))) ++ f.1 :: f.2.

(** What a handler sees of a frame that was read whole. *)
Definition message (f : byte * list byte) : MessageType * list byte :=
  (Byte.to_N f.1, f.2).

(** A handler that only answers [res], whatever it is given. *)
Definition const_handler (mt : MessageType) (close : bool)
    (res : option error) : TCPMessageHandler :=
  {| handler_MessageType := mt;
     OnMessage := λ _ _ cs, {| h_cars := cs; h_close := close; h_err := res |} |}.

(** Type 7 succeeds, type 8 fails with an error of its own, type 9 asks
    for the connection to be closed. *)
Definition sample_handlers : gmap N TCPMessageHandler :=
  initMessageHandlers
    [const_handler 7%N false None;
     const_handler 8%N false (Some (OtherError "checksum mismatch"));
     const_handler 9%N true None].

(** A read error at the start of a round of the loop: on the length
    prefix, or on the payload after a length prefix was read. *)
Definition read_fails (stage : read_stage) (err : error)
    (rest : list read_event) (s : list read_event) : Prop :=
  match stage with
  | ReadLength => binary_Read_uint16 s = LenFail err rest
  | ReadMessage =>
      ∃ messageLength mid,
        binary_Read_uint16 s = LenOk messageLength mid
        ∧ conn_Read (N.to_nat messageLength) mid = RFail err rest
  end.

(** A car slot in use by connection 0, and that connection with a close
    signal pending. *)
Definition occupied_car : Car :=
  {| CarID := 3%N; car_Connection := {| conn_tcp := Some 0 |};
     ChecksumVerified := true; Tyres := "SM"; LapCount := 5%N |}.

Definition closing_world : world :=
  {| conn := {| self := 0; open := true; incoming := [];
                closer := Chan.mk 1 1 |};
     pc := AtSelect; cars := [occupied_car]; out := [] |}.

(** A slot in use by connection 1, and connection 0 with a close signal
    pending on a table that holds a slot of each. *)
Definition neighbour_car : Car :=
  {| CarID := 4%N; car_Connection := {| conn_tcp := Some 1 |};
     ChecksumVerified := true; Tyres := "H"; LapCount := 2%N |}.

Definition closing_world_shared : world :=
  {| conn := {| self := 0; open := true; incoming := [];
                closer := Chan.mk 1 1 |};
     pc := AtSelect; cars := [neighbour_car; occupied_car; Car_zero]; out := [] |}.

(** The bytes of a sequence of frames sent back to back. *)
Definition stream (fs : list (byte * list byte)) : list byte :=
  concat (frame <$> fs).

(** A frame the 16-bit length prefix can describe. *)
Definition fits (f : byte * list byte) : Prop :=
  (N.of_nat (S (length f.2)) < 65536)%N.

(** The messages of [fs] that reach a handler. *)
Definition deliveries (handlers : gmap N TCPMessageHandler)
    (fs : list (byte * list byte)) : list (MessageType * list byte) :=
  message <$> filter (λ f, is_Some (handlers !! Byte.to_N f.1)) fs.

(** Every registered handler returns [nil] and leaves the connection
    alone, on every message and every car table. *)
Definition handlers_succeed (handlers : gmap N TCPMessageHandler) : Prop :=
  ∀ mt h id p cs,
    handlers !! mt = Some h →
    h_err (OnMessage h id p cs) = None ∧ h_close (OnMessage h id p cs) = false.

(** The car table after the handlers of the frames [fs] have run on it
    one after the other, each on the table the one before it left. *)
Definition serve (handlers : gmap N TCPMessageHandler) (id : conn_id)
    (fs : list (byte * list byte)) (cs : list Car) : list Car :=
  foldl (λ cs f, match handlers !! Byte.to_N f.1 with
                 | Some h => h_cars (OnMessage h id f.2 cs)
                 | None => cs
                 end) cs fs.

(** A handler of type 7 that leaves a mark of every message, and of the
    order of the messages, on the cars of its connection: the lap count
    is doubled and the length of the payload added to it. *)
Definition marking_handler : TCPMessageHandler :=
  {| handler_MessageType := 7%N;
     OnMessage := λ id p cs,
       {| h_cars :=
            (λ car,
               if decide (conn_tcp (car_Connection car) = Some id)
               then {| CarID := CarID car;
                       car_Connection := car_Connection car;
                       ChecksumVerified := ChecksumVerified car;
                       Tyres := Tyres car;
                       LapCount := 2 * LapCount car + N.of_nat (length p) |}
               else car) <$> cs;
          h_close := false;
          h_err := None |} |}.

Definition marking_handlers : gmap N TCPMessageHandler :=
  initMessageHandlers [marking_handler].

(** The script of a stream that arrives in segments, each segment a run
    of whole frames: one read event per segment that holds any bytes. *)
Definition segments (gs : list (list (byte * list byte))) : list read_event :=
  foldr (λ g s, push_back (stream g) s) [] gs.

(** The loop is at its [select] with no close signal pending, the frames
    [fs] arrived and ahead of it, and the segments [gs] still to come. *)
Definition on_track (fs : list (byte * list byte))
    (gs : list (list (byte * list byte))) (w : world) : Prop :=
  pc w = AtSelect
  ∧ Chan.buffered (closer (conn w)) = 0
  ∧ incoming (conn w) = push_back (stream fs) (segments gs).

(** The loop has left the path on which it reads frames: it is past its
    [select], or a close signal is pending. *)
Definition winding_down (w : world) : Prop :=
  pc w ≠ AtSelect ∨ 1 ≤ Chan.buffered (closer (conn w)).

(** A set of handlers none of which fails. *)
Definition quiet_handlers : gmap N TCPMessageHandler :=
  initMessageHandlers [const_handler 7%N false None].

(** A server with two accepted connections, one of them in the middle of
    its error branch. *)
Definition busy_server : TCP :=
  {| port := 9600%N;
     messageHandlers := sample_handlers;
     listener := true;
     closed := Chan.make 1;
     accept_loop := Accepting;
     conns := [({| self := 0; open := true;
                   incoming := [RData (frame (x07, [x01]))];
                   closer := Chan.make 1 |}, AtSelect);
               ({| self := 1; open := true; incoming := [];
                   closer := Chan.make 1 |}, AtSendCloser)];
     next_conn := 2;
     state := [occupied_car];
     logger := [] |}.

(** The same world with [o] logged before everything it has logged. *)
Definition relog (o : list event) (w : world) : world :=
  {| conn := conn w; pc := pc w; cars := cars w; out := o ++ out w |}.

Definition relog_outcome (o : list event) (r : outcome) : outcome :=
  match r with
  | Step w => Step (relog o w)
  | Blocked => Blocked
  | Halted => Halted
  end.

(** What is left of a script: one for every read event and one for every
    byte still to be handed over. *)
Fixpoint script_weight (s : list read_event) : nat :=
  match s with
  | [] => 0
  | RData bs :: s => S (length bs) + script_weight s
  | RErr _ :: s => 1 + script_weight s
  end.

(** How far a program counter is from the end of its round. *)
Definition pc_weight (p : task_pc) : nat :=
  match p with
  | InHandler _ _ => 3
  | AtSendCloser => 2
  | AtSelect => 1
  | InRead | Returned => 0
  end.

(** A bound on the steps the read loop can still take by itself. *)
Definition loop_measure (w : world) : nat :=
  4 * script_weight (incoming (conn w)) + pc_weight (pc w).

(** The loop is at rest: it has returned or it waits. *)
Definition at_rest (handlers : gmap N TCPMessageHandler) (w : world) : Prop :=
  match task_step handlers w with
  | Step _ => False
  | Blocked | Halted => True
  end.

(** * Properties *)

(** ** Sanity checks of the transport model *)

Example hex_sample : hex [x01; xab; xff] = "01abff"%string.
Proof. reflexivity. Qed.

Example read_short :
  conn_Read 10 [RData [x03; x01; x02]; RErr (OpError false)]
  = ROk [x03; x01; x02] [RErr (OpError false)].
Proof. reflexivity. Qed.

Example read_len_split :
  binary_Read_uint16 [RData [x0a]; RData [x00; x07]] = LenOk 10 [RData [x07]].
Proof. reflexivity. Qed.

Example frame_sample : frame (x07, [x01; x02]) = [x03; x00; x07; x01; x02].
Proof. reflexivity. Qed.

Example sample_lookup :
  handler_MessageType <$> sample_handlers !! 8%N = Some 8%N
  ∧ sample_handlers !! 99%N = None.
Proof. split; reflexivity. Qed.

(** ** Bookkeeping *)

Lemma try_recv_None ch : Chan.try_recv ch = None ↔ Chan.buffered ch = 0.
Proof. unfold Chan.try_recv. destruct (Chan.buffered ch); split; congruence. Qed.

Lemma task_return_out w :
  out (task_return w)
  = out w ++ [EvClose (self (conn w))
                (if open (conn w) then None else Some (OpError false))].
Proof. reflexivity. Qed.

(** ** One round of the read loop *)

(** The round of the loop on a frame: with nothing to receive on
    [closer], a length prefix read and a payload read, the step is the
    rest of [handleConnection] on what was read. *)
Lemma task_step_frame handlers w messageLength mid :
  pc w = AtSelect →
  Chan.try_recv (closer (conn w)) = None →
  binary_Read_uint16 (incoming (conn w)) = LenOk messageLength mid →
  task_step handlers w
  = match handleConnection handlers messageLength
            (with_conn (with_incoming mid (conn w)) w) with
    | Stuck w' | Suspended w' => Step w'
    | Ret w' err => Step (after_handleConnection err w')
    end.
Proof.
  intros Hpc Hrecv Hlen. unfold task_step. rewrite Hpc, Hrecv, Hlen.
  by destruct (handleConnection _ _ _).
Qed.

(** C6: a frame whose message type has no registered handler is logged with
    its type and length, its raw bytes are printed in hex, and the read
    loop goes on to the next round with the connection as it was: still
    open, no close signal, the car table untouched. *)
Theorem unknown_type_is_not_fatal handlers w messageLength mid buf rest :
  pc w = AtSelect →
  Chan.try_recv (closer (conn w)) = None →
  binary_Read_uint16 (incoming (conn w)) = LenOk messageLength mid →
  conn_Read (N.to_nat messageLength) mid = ROk buf rest →
  handlers !! (Packet_Read_MessageType buf).1 = None →
  ∃ w',
    task_step handlers w = Step w'
    ∧ pc w' = AtSelect
    ∧ out w' = out w ++ [EvLog (UnknownMessageType (Packet_Read_MessageType buf).1 (length buf));
                         EvStdout (hex buf +:+ newline)]
    ∧ conn w' = with_incoming rest (conn w)
    ∧ cars w' = cars w.
Proof.
  intros Hpc Hrecv Hlen Hread Hnone.
  rewrite (task_step_frame _ _ _ _ Hpc Hrecv Hlen).
  unfold handleConnection. simpl. rewrite Hread.
  destruct (Packet_Read_MessageType buf) as [mt p] eqn:Hmt. simpl in *.
  rewrite Hnone. eexists. split; [reflexivity|].
  destruct w as [[]]; done.
Qed.

Lemma unknown_type_witness :
  ∃ w',
    task_step sample_handlers (spawn 0 [RData [x02; x00; x63; x01]] []) = Step w'
    ∧ pc w' = AtSelect
    ∧ out w' = [EvLog (UnknownMessageType 99%N 2); EvStdout ("6301" +:+ newline)]
    ∧ conn w' = with_incoming [] (conn (spawn 0 [RData [x02; x00; x63; x01]] []))
    ∧ cars w' = [].
Proof.
  apply (unknown_type_is_not_fatal sample_handlers
           (spawn 0 [RData [x02; x00; x63; x01]] []) 2%N
           [RData [x63; x01]] [x63; x01] []); reflexivity.
Defined.

(** ** The cleanup *)

Lemma clear_Connection_fields car :
  CarID (clear_Connection car) = CarID car
  ∧ ChecksumVerified (clear_Connection car) = ChecksumVerified car
  ∧ Tyres (clear_Connection car) = Tyres car
  ∧ LapCount (clear_Connection car) = LapCount car
  ∧ car_Connection (clear_Connection car) = Connection_zero.
Proof. done. Qed.

(** C5, as stated, fails: after the cleanup of connection 0 the slot it
    occupied still has its id and its lap count, so it is not the empty
    default slot; and the transport is closed before the slot is touched. *)
Lemma cleanup_keeps_slot_fields :
  let w' := run sample_handlers 1 closing_world in
  pc w' = Returned
  ∧ cars w' !! 0 ≠ Some Car_zero
  ∧ (CarID <$> cars w' !! 0) = Some 3%N
  ∧ (LapCount <$> cars w' !! 0) = Some 5%N
  ∧ out w' = [EvCleanup 0; EvClose 0 None; EvLog CleanlyClosed; EvRelease 0;
              EvClose 0 (Some (OpError false))].
Proof. vm_compute. repeat split; congruence. Qed.

(** C5, amended: when the close signal is received the loop looks up the
    car of the connection, closes the transport, logs the result, and then
    clears only the connection of that car slot: its id, checksum status,
    tyres and lap count keep their values, every other slot is untouched;
    the goroutine then returns, and its deferred close finds the transport
    closed. *)
Theorem cleanup_clears_connection_only handlers w ch :
  pc w = AtSelect →
  Chan.try_recv (closer (conn w)) = Some ch →
  ∃ w',
    task_step handlers w = Step w'
    ∧ pc w' = Returned
    ∧ open (conn w') = false
    ∧ closer (conn w') = ch
    ∧ let id := self (conn w) in
      let res := if open (conn w) then None else Some (OpError false) in
      let line := match res with Some err => CouldNotClose err | None => CleanlyClosed end in
      match GetCarByTCPConn id (cars w) with
      | Some (slot, car) =>
          cars w' !! slot = Some (clear_Connection car)
          ∧ (∀ j, j ≠ slot → cars w' !! j = cars w !! j)
          ∧ out w' = out w ++ [EvCleanup id; EvClose id res; EvLog line;
                               EvRelease slot; EvClose id (Some (OpError false))]
      | None =>
          cars w' = cars w
          ∧ out w' = out w ++ [EvCleanup id; EvClose id res; EvLog line;
                               EvClose id (Some (OpError false))]
      end.
Proof.
  intros Hpc Hrecv. unfold task_step. rewrite Hpc, Hrecv.
  eexists. split; [reflexivity|].
  destruct w as [[id op inc cl] p cs o]. simpl in *. unfold cleanup. simpl.
  destruct (GetCarByTCPConn id cs) as [[slot car]|] eqn:Hcar; simpl.
  - apply list_find_Some in Hcar as (Hslot & _ & _).
    repeat split.
    + by rewrite list_lookup_alter_eq, Hslot.
    + intros j Hj. by rewrite list_lookup_alter_ne.
    + by rewrite <- !app_assoc.
  - repeat split. by rewrite <- !app_assoc.
Qed.

Lemma cleanup_clears_connection_only_witness :
  ∃ w',
    task_step sample_handlers closing_world = Step w'
    ∧ pc w' = Returned
    ∧ open (conn w') = false
    ∧ closer (conn w') = Chan.mk 1 0
    ∧ cars w' !! 0 = Some (clear_Connection occupied_car)
    ∧ (∀ j, j ≠ 0 → cars w' !! j = [occupied_car] !! j)
    ∧ out w' = [EvCleanup 0; EvClose 0 None; EvLog CleanlyClosed;
                EvRelease 0; EvClose 0 (Some (OpError false))].
Proof.
  apply (cleanup_clears_connection_only sample_handlers closing_world (Chan.mk 1 0));
    reflexivity.
Defined.

(** ** Counting cleanups and dispatches *)

Lemma cleanups_emit es w :
  cleanups (emit es w)
  = cleanups w + length (filter (λ e, is_cleanup e = true) es).
Proof. unfold cleanups. simpl. by rewrite filter_app, length_app. Qed.

Lemma dispatched_emit es w :
  dispatched (emit es w) = dispatched w ++ omap is_dispatch es.
Proof. unfold dispatched. simpl. by rewrite omap_app. Qed.

Lemma cleanups_task_return w : cleanups (task_return w) = cleanups w.
Proof.
  unfold cleanups. rewrite task_return_out, filter_app, length_app. simpl. lia.
Qed.

Lemma dispatched_task_return w : dispatched (task_return w) = dispatched w.
Proof.
  unfold dispatched. rewrite task_return_out, omap_app. simpl.
  by rewrite app_nil_r.
Qed.

Lemma cleanups_cleanup w : cleanups (cleanup w) = S (cleanups w).
Proof.
  unfold cleanup, conn_Close. cbv beta iota zeta.
  destruct (GetCarByTCPConn _ _) as [[slot car]|];
    rewrite cleanups_task_return; unfold cleanups; simpl;
    rewrite !filter_app, !length_app; simpl; lia.
Qed.

Lemma dispatched_cleanup w : dispatched (cleanup w) = dispatched w.
Proof.
  unfold cleanup, conn_Close. cbv beta iota zeta.
  destruct (GetCarByTCPConn _ _) as [[slot car]|];
    rewrite dispatched_task_return; unfold dispatched; simpl;
    rewrite !omap_app; simpl; by rewrite !app_nil_r.
Qed.

Lemma cleanup_pc w : pc (cleanup w) = Returned.
Proof.
  unfold cleanup, conn_Close. cbv beta iota zeta.
  by destruct (GetCarByTCPConn _ _) as [[]|].
Qed.

Lemma on_error_cleanups stage err w : cleanups (on_error stage err w) = cleanups w.
Proof.
  unfold on_error. destruct (is_permanent_OpError err); [done|].
  rewrite cleanups_task_return, cleanups_emit. simpl. lia.
Qed.

Lemma on_error_dispatched stage err w :
  dispatched (on_error stage err w) = dispatched w.
Proof.
  unfold on_error. destruct (is_permanent_OpError err); [done|].
  rewrite dispatched_task_return, dispatched_emit. simpl. by rewrite app_nil_r.
Qed.

(** A goroutine that has returned, or that sits in a read that never
    returns, takes no further step. *)
Lemma run_Returned handlers fuel w : pc w = Returned → run handlers fuel w = w.
Proof. intros Hpc. destruct fuel; [done|]. simpl. unfold task_step. by rewrite Hpc. Qed.

Lemma run_InRead handlers fuel w : pc w = InRead → run handlers fuel w = w.
Proof. intros Hpc. destruct fuel; [done|]. simpl. unfold task_step. by rewrite Hpc. Qed.

(** ** Read errors *)

(** C3, as stated, fails: a temporary read error is not retried.  The loop
    logs it and returns; the frame that arrives after it is never read. *)
Lemma temporary_error_ends_loop :
  let w := spawn 0 [RErr (OpError true); RData (frame (x07, [x01]))] [] in
  let w' := run sample_handlers 1 w in
  pc w' = Returned
  ∧ incoming (conn w') = [RData (frame (x07, [x01]))]
  ∧ out w' = [EvLog (ReadLengthFailed (OpError true)); EvClose 0 None]
  ∧ ∀ fuel, dispatched (run sample_handlers fuel w') = [].
Proof.
  repeat split. intros fuel. by rewrite run_Returned.
Qed.

(** An error that is no [net.OpError], such as the [EOF] of a peer that
    closed its side, ends the loop as well, and the car slot of the
    connection stays assigned. *)
Example eof_ends_loop_without_cleanup :
  let w' := run sample_handlers 5 (spawn 0 [RErr EOF] [occupied_car]) in
  pc w' = Returned ∧ cleanups w' = 0 ∧ cars w' = [occupied_car].
Proof. by vm_compute. Qed.

(** *** The other parties between two steps of the loop *)

Lemma exec_app handlers l1 l2 w :
  exec handlers (l1 ++ l2) w = exec handlers l2 (exec handlers l1 w).
Proof. apply foldl_app. Qed.

Lemma next_owner_spec sched :
  match next_owner sched with
  | Some (pre, post) => sched = pre ++ Owner :: post ∧ Forall (λ a, a ≠ Owner) pre
  | None => Forall (λ a, a ≠ Owner) sched
  end.
Proof.
  induction sched as [|a sched IH]; simpl; [done|].
  destruct a; [by split| |];
    (destruct (next_owner sched) as [[pre post]|];
     [destruct IH as [-> Hpre]; split; [done|by constructor]
     |by constructor]).
Qed.

(** While the read loop is not scheduled, it stays where it is and its
    trace and transport stay the same; of its connection only [closer] can
    change, which holds a signal afterwards when it held one before or
    when [closeTCPConnection] was called. *)
Lemma others_only handlers pre :
  Forall (λ a, a ≠ Owner) pre →
  ∀ w b,
    b ≤ 1 →
    closer (conn w) = Chan.mk 1 b →
    pc (exec handlers pre w) = pc w
    ∧ out (exec handlers pre w) = out w
    ∧ self (conn (exec handlers pre w)) = self (conn w)
    ∧ open (conn (exec handlers pre w)) = open (conn w)
    ∧ incoming (conn (exec handlers pre w)) = incoming (conn w)
    ∧ closer (conn (exec handlers pre w))
      = Chan.mk 1 (if existsb is_external_close pre then 1 else b).
Proof.
  induction 1 as [|a pre Ha Hpre IH]; intros w b Hb Hcl; [by destruct w|].
  destruct a as [| |cs]; [done| |].
  - assert (Hw : ∃ w1, act handlers ExternalClose w = w1
                       ∧ pc w1 = pc w ∧ out w1 = out w
                       ∧ self (conn w1) = self (conn w)
                       ∧ open (conn w1) = open (conn w)
                       ∧ incoming (conn w1) = incoming (conn w)
                       ∧ closer (conn w1) = Chan.mk 1 1).
    { eexists. split; [reflexivity|]. simpl. rewrite Hcl. unfold Chan.send. simpl.
      case_decide as Hroom; simpl.
      - repeat split. f_equal. lia.
      - repeat split; try done. rewrite Hcl. f_equal. lia. }
    destruct Hw as (w1 & Hact & Hp & Ho & Hs & Hop & Hin & Hcl1).
    change (exec handlers (ExternalClose :: pre) w)
      with (exec handlers pre (act handlers ExternalClose w)).
    change (existsb is_external_close (ExternalClose :: pre)) with true.
    rewrite Hact.
    destruct (IH w1 1 (le_n 1) Hcl1) as (? & ? & ? & ? & ? & Hcl').
    repeat split; try congruence.
    rewrite Hcl'. by destruct (existsb _ _).
  - change (exec handlers (Environment cs :: pre) w)
      with (exec handlers pre (with_cars cs w)).
    change (existsb is_external_close (Environment cs :: pre))
      with (existsb is_external_close pre).
    destruct (IH (with_cars cs w) b Hb Hcl) as (? & ? & ? & ? & ? & Hcl').
    done.
Qed.

Lemma Returned_stays handlers sched : ∀ w,
  pc w = Returned →
  pc (exec handlers sched w) = Returned
  ∧ out (exec handlers sched w) = out w
  ∧ open (conn (exec handlers sched w)) = open (conn w).
Proof.
  induction sched as [|a sched IH]; intros w Hpc; [done|].
  simpl. destruct a; simpl.
  - unfold task_step. rewrite Hpc. by apply IH.
  - destruct (Chan.send _) as [ch|]; [|by apply IH].
    destruct (IH (with_conn (with_closer ch (conn w)) w) Hpc) as (? & ? & ?).
    done.
  - destruct (IH (with_cars cs w) Hpc) as (? & ? & ?). done.
Qed.

Lemma cleanup_open w : open (conn (cleanup w)) = false.
Proof.
  unfold cleanup, conn_Close. cbv beta iota zeta.
  by destruct (GetCarByTCPConn _ _) as [[]|].
Qed.

Lemma cleanups_out w w' : out w' = out w → cleanups w' = cleanups w.
Proof. unfold cleanups. by intros ->. Qed.

(** Nothing but the [select] of the read loop takes a token from
    [closer]: with the buffer full and the loop anywhere else, no step of
    any party changes the loop, its connection or its trace. *)
Lemma full_closer_stays handlers sched : ∀ w,
  pc w ≠ AtSelect →
  Chan.send (closer (conn w)) = None →
  pc (exec handlers sched w) = pc w
  ∧ conn (exec handlers sched w) = conn w
  ∧ out (exec handlers sched w) = out w.
Proof.
  induction sched as [|a sched IH]; intros w Hpc Hfull; [done|].
  assert (Hact : pc (act handlers a w) = pc w
                 ∧ conn (act handlers a w) = conn w
                 ∧ out (act handlers a w) = out w).
  { destruct a; simpl.
    - unfold task_step. destruct (pc w) eqn:E; try done; by rewrite Hfull.
    - by rewrite Hfull.
    - done. }
  destruct Hact as (Hp & Hc & Ho). simpl.
  destruct (IH (act handlers a w)) as (Hp' & Hc' & Ho').
  - by rewrite Hp.
  - by rewrite Hc.
  - split; [congruence|]. split; congruence.
Qed.

(** C3, amended: a read error on the length prefix or on the payload is
    classified, under every schedule of the loop, of outside calls of
    [closeTCPConnection] and of writes to the car table that follows it.
    A permanent [net.OpError] takes the loop to its send of the close
    signal.  When no outside close has come between the failed read and
    that send, the send succeeds, the signal is buffered, and the next
    round of the loop receives it and runs the cleanup, once, closing the
    transport.  When an outside close has come first, the loop blocks at
    its send and stays there: no cleanup runs and the transport stays as
    it is.  Every other error, temporary ones included, is logged and the
    goroutine returns: its deferred close runs on the transport, no
    cleanup runs, then or later, and the car table is left as it is. *)
Theorem read_error_classification handlers w stage err rest sched :
  pc w = AtSelect →
  closer (conn w) = Chan.make 1 →
  read_fails stage err rest (incoming (conn w)) →
  let w0 := with_conn (with_incoming rest (conn w)) w in
  let w' := exec handlers (Owner :: sched) w in
  if is_permanent_OpError err
  then act handlers Owner w = goto AtSendCloser w0
       ∧ match next_owner sched with
         | None => pc w' = AtSendCloser ∧ cleanups w' = cleanups w
         | Some (pre, post) =>
             if existsb is_external_close pre
             then pc w' = AtSendCloser
                  ∧ task_step handlers w' = Blocked
                  ∧ cleanups w' = cleanups w
                  ∧ open (conn w') = open (conn w)
             else match next_owner post with
                  | None =>
                      pc w' = AtSelect
                      ∧ Chan.buffered (closer (conn w')) = 1
                      ∧ cleanups w' = cleanups w
                  | Some _ =>
                      pc w' = Returned
                      ∧ cleanups w' = S (cleanups w)
                      ∧ open (conn w') = false
                  end
         end
  else act handlers Owner w = task_return (emit [EvLog (stage_line stage err)] w0)
       ∧ cars (act handlers Owner w) = cars w
       ∧ pc w' = Returned
       ∧ open (conn w') = false
       ∧ cleanups w' = cleanups w
       ∧ out w'
         = out w ++ [EvLog (stage_line stage err);
                     EvClose (self (conn w))
                       (if open (conn w) then None else Some (OpError false))].
Proof.
  intros Hpc Hcl Hfail w0 w'.
  assert (Hstep : task_step handlers w = Step (on_error stage err w0)).
  { unfold task_step. rewrite Hpc, Hcl. simpl.
    destruct stage; simpl in Hfail.
    - by rewrite Hfail.
    - destruct Hfail as (n & mid & -> & Hread).
      unfold handleConnection. simpl. by rewrite Hread. }
  assert (Hact : act handlers Owner w = on_error stage err w0).
  { simpl. by rewrite Hstep. }
  assert (Hw' : w' = exec handlers sched (on_error stage err w0)).
  { subst w'.
    change (exec handlers (Owner :: sched) w)
      with (exec handlers sched (act handlers Owner w)).
    by rewrite Hact. }
  clearbody w'. subst w'. rewrite Hact. clear Hstep Hact.
  unfold on_error.
  destruct (is_permanent_OpError err) eqn:Hperm.
  - split; [done|].
    set (w1 := goto AtSendCloser w0).
    assert (Hcl1 : closer (conn w1) = Chan.mk 1 0) by exact Hcl.
    pose proof (next_owner_spec sched) as Hsched.
    destruct (next_owner sched) as [[pre post]|].
    + destruct Hsched as [-> Hpre]. rewrite exec_app.
      destruct (others_only handlers pre Hpre w1 0 (le_S _ _ (le_n 0)) Hcl1)
        as (Hp2 & Ho2 & _ & Hop2 & _ & Hcl2).
      set (w2 := exec handlers pre w1) in *.
      destruct (existsb is_external_close pre).
      * destruct (full_closer_stays handlers (Owner :: post) w2) as (Hp & Hc & Ho).
        { by rewrite Hp2. }
        { by rewrite Hcl2. }
        split; [by rewrite Hp, Hp2|]. split.
        { unfold task_step. by rewrite Hp, Hp2, Hc, Hcl2. }
        split; [apply cleanups_out; by rewrite Ho, Ho2|].
        by rewrite Hc, Hop2.
      * assert (Hsend : act handlers Owner w2
                        = goto AtSelect (with_conn (with_closer (Chan.mk 1 1) (conn w2)) w2)).
        { simpl. unfold task_step. by rewrite Hp2, Hcl2. }
        change (exec handlers (Owner :: post) w2)
          with (exec handlers post (act handlers Owner w2)).
        rewrite Hsend.
        set (w3 := goto AtSelect _).
        assert (Hcl3 : closer (conn w3) = Chan.mk 1 1) by done.
        pose proof (next_owner_spec post) as Hpost.
        destruct (next_owner post) as [[pre' post']|].
        -- destruct Hpost as [-> Hpre']. rewrite exec_app.
           destruct (others_only handlers pre' Hpre' w3 1 (le_n 1) Hcl3)
             as (Hp4 & Ho4 & _ & _ & _ & Hcl4).
           set (w4 := exec handlers pre' w3) in *.
           assert (Hch : (if existsb is_external_close pre' then 1 else 1) = 1)
             by by destruct (existsb _ _).
           rewrite Hch in Hcl4.
           assert (Hrecv : act handlers Owner w4
                           = cleanup (with_conn (with_closer (Chan.mk 1 0) (conn w4)) w4)).
           { simpl. unfold task_step. by rewrite Hp4, Hcl4. }
           change (exec handlers (Owner :: post') w4)
             with (exec handlers post' (act handlers Owner w4)).
           rewrite Hrecv.
           set (w5 := with_conn (with_closer (Chan.mk 1 0) (conn w4)) w4).
           destruct (Returned_stays handlers post' (cleanup w5) (cleanup_pc w5))
             as (Hp & Ho & Hop).
           split; [done|]. split.
           ++ rewrite (cleanups_out _ _ Ho), cleanups_cleanup. f_equal.
              apply cleanups_out. simpl. by rewrite Ho4.
           ++ by rewrite Hop, cleanup_open.
        -- destruct (others_only handlers post Hpost w3 1 (le_n 1) Hcl3)
             as (Hp4 & Ho4 & _ & _ & _ & Hcl4).
           split; [done|]. split.
           ++ rewrite Hcl4. by destruct (existsb _ _).
           ++ apply cleanups_out. rewrite Ho4. simpl. by rewrite Ho2.
    + destruct (others_only handlers sched Hsched w1 0 (le_S _ _ (le_n 0)) Hcl1)
        as (Hp2 & Ho2 & _).
      split; [done|]. apply cleanups_out. by rewrite Ho2.
  - split; [done|].
    set (w1 := task_return _).
    assert (Hp1 : pc w1 = Returned) by done.
    destruct (Returned_stays handlers sched w1 Hp1) as (Hp & Ho & Hop).
    split; [by destruct w as [[] ? ? ?]|].
    split; [done|]. split; [by rewrite Hop|]. split.
    + rewrite (cleanups_out _ _ Ho). subst w1.
      rewrite cleanups_task_return, cleanups_emit. unfold cleanups. simpl. lia.
    + rewrite Ho. subst w1 w0. unfold task_return, conn_Close. simpl.
      by rewrite <- app_assoc.
Qed.

(** A permanent error on the payload of connection 0.  Left alone, the
    loop sends the signal, receives it and runs the cleanup; with an
    outside close between the failed read and the send, it blocks at its
    send and no cleanup runs. *)
Lemma read_error_classification_witness :
  let w := spawn 0 [RData [x0a; x00]; RErr (OpError false)] [occupied_car] in
  (let w' := exec sample_handlers [Owner; Environment [occupied_car]; Owner; Owner] w in
   act sample_handlers Owner w
   = goto AtSendCloser (with_conn (with_incoming [] (conn w)) w)
   ∧ pc w' = Returned ∧ cleanups w' = 1 ∧ open (conn w') = false)
  ∧ (let w' := exec sample_handlers [Owner; ExternalClose; Owner; Owner] w in
     act sample_handlers Owner w
     = goto AtSendCloser (with_conn (with_incoming [] (conn w)) w)
     ∧ pc w' = AtSendCloser
     ∧ task_step sample_handlers w' = Blocked
     ∧ cleanups w' = 0
     ∧ open (conn w') = true).
Proof.
  split.
  - apply (read_error_classification sample_handlers
             (spawn 0 [RData [x0a; x00]; RErr (OpError false)] [occupied_car])
             ReadMessage (OpError false) []
             [Environment [occupied_car]; Owner; Owner]).
    + reflexivity.
    + reflexivity.
    + exists 10%N, [RErr (OpError false)]. split; reflexivity.
  - apply (read_error_classification sample_handlers
             (spawn 0 [RData [x0a; x00]; RErr (OpError false)] [occupied_car])
             ReadMessage (OpError false) []
             [ExternalClose; Owner; Owner]).
    + reflexivity.
    + reflexivity.
    + exists 10%N, [RErr (OpError false)]. split; reflexivity.
Defined.

(** ** Handler errors *)

(** C4, as stated, fails: the handler of type 8 returns an error of its
    own; the error is logged with the handler's type, and then the loop
    logs it again and returns.  The frame of type 7 that follows in the
    same stream is never dispatched. *)
Lemma handler_error_ends_loop :
  let w := spawn 0 [RData (frame (x08, [x01]) ++ frame (x07, [x02]))] [] in
  let w' := run sample_handlers 1 w in
  pc w' = Returned
  ∧ incoming (conn w') = [RData (frame (x07, [x02]))]
  ∧ out w' = [EvDispatch 0 8%N [x01];
              EvLog (HandlerReturnedError 8%N (OtherError "checksum mismatch"));
              EvLog (ReadMessageFailed (OtherError "checksum mismatch"));
              EvClose 0 None]
  ∧ ∀ fuel, dispatched (run sample_handlers fuel w') = [(8%N, [x01])].
Proof.
  repeat split. intros fuel. by rewrite run_Returned.
Qed.

(** C4, amended: when the handler of a dispatched message returns an error,
    the error is logged with the handler's declared message type and handed
    back to the read loop, which classifies it like a read error: a
    permanent [net.OpError] takes the loop to the send of the close signal;
    any other error is logged once more and the goroutine returns, closing
    the transport through its deferred close. *)
Theorem handler_error_is_classified handlers w messageLength mid buf rest h err :
  pc w = AtSelect →
  closer (conn w) = Chan.make 1 →
  binary_Read_uint16 (incoming (conn w)) = LenOk messageLength mid →
  conn_Read (N.to_nat messageLength) mid = ROk buf rest →
  handlers !! (Packet_Read_MessageType buf).1 = Some h →
  let id := self (conn w) in
  let payload := (Packet_Read_MessageType buf).2 in
  let r := OnMessage h id payload (cars w) in
  h_err r = Some err →
  let w' := run handlers (if h_close r then 2 else 1) w in
  out w'
  = out w
    ++ [EvDispatch id (Packet_Read_MessageType buf).1 payload;
        EvLog (HandlerReturnedError (handler_MessageType h) err)]
    ++ (if is_permanent_OpError err then []
        else [EvLog (ReadMessageFailed err);
              EvClose id (if open (conn w) then None else Some (OpError false))])
  ∧ pc w' = (if is_permanent_OpError err then AtSendCloser else Returned)
  ∧ cars w' = h_cars r
  ∧ Chan.buffered (closer (conn w')) = (if h_close r then 1 else 0).
Proof.
  intros Hpc Hcl Hlen Hread Hh id payload r Herr.
  subst id payload r.
  destruct w as [[id op inc cl] p cs o]. simpl in Hpc, Hcl, Hlen. subst p cl.
  destruct (Packet_Read_MessageType buf) as [mt payload] eqn:Hmt.
  simpl in Hh, Herr |- *.
  set (r := OnMessage h id payload cs) in *.
  set (w := {| conn := {| self := id; open := op; incoming := inc;
                          closer := Chan.make 1 |};
               pc := AtSelect; cars := cs; out := o |}).
  assert (Hhc : handleConnection handlers messageLength
                  (with_conn (with_incoming mid (conn w)) w)
                = let w1 := emit [EvDispatch id mt payload]
                              (with_cars (h_cars r)
                                 (with_conn (with_incoming rest (conn w)) w)) in
                  if h_close r
                  then Suspended (goto (InHandler (handler_MessageType h) (h_err r)) w1)
                  else Ret (handler_returned (handler_MessageType h) (h_err r) w1).1
                           (handler_returned (handler_MessageType h) (h_err r) w1).2).
  { unfold handleConnection. simpl. rewrite Hread, Hmt, Hh. fold r.
    destruct (h_close r); [done|]. by destruct (h_err r). }
  assert (Hstep := task_step_frame handlers w messageLength mid eq_refl eq_refl Hlen).
  rewrite Hhc in Hstep. simpl in Hstep. rewrite Herr in Hstep.
  destruct (h_close r) eqn:Hclose.
  - cbn [run]. rewrite Hstep. unfold task_step. simpl.
    unfold on_error. destruct (is_permanent_OpError err); simpl.
    + by rewrite <- app_assoc.
    + by rewrite <- !app_assoc.
  - cbn [run]. rewrite Hstep. simpl.
    unfold on_error. destruct (is_permanent_OpError err); simpl.
    + by rewrite <- app_assoc.
    + by rewrite <- !app_assoc.
Qed.

Lemma handler_error_is_classified_witness :
  let w := spawn 0 [RData (frame (x08, [x01]) ++ frame (x07, [x02]))] [] in
  let w' := run sample_handlers 1 w in
  out w'
  = [EvDispatch 0 8%N [x01];
     EvLog (HandlerReturnedError 8%N (OtherError "checksum mismatch"))]
    ++ [EvLog (ReadMessageFailed (OtherError "checksum mismatch")); EvClose 0 None]
  ∧ pc w' = Returned
  ∧ cars w' = []
  ∧ Chan.buffered (closer (conn w')) = 0.
Proof.
  apply (handler_error_is_classified sample_handlers
           (spawn 0 [RData (frame (x08, [x01]) ++ frame (x07, [x02]))] [])
           2%N [RData ([x08; x01] ++ frame (x07, [x02]))] [x08; x01]
           [RData (frame (x07, [x02]))]
           (const_handler 8%N false (Some (OtherError "checksum mismatch")))
           (OtherError "checksum mismatch")); reflexivity.
Defined.

(** ** At most one cleanup *)

Lemma send_buffered ch ch' :
  Chan.send ch = Some ch' → Chan.buffered ch' = S (Chan.buffered ch).
Proof. unfold Chan.send. case_decide; [|done]. by intros [= <-]. Qed.

Lemma try_recv_buffered ch ch' :
  Chan.try_recv ch = Some ch' → Chan.buffered ch = S (Chan.buffered ch').
Proof. unfold Chan.try_recv. destruct (Chan.buffered ch); [done|]. by intros [= <-]. Qed.

Lemma cleanup_closer w : closer (conn (cleanup w)) = closer (conn w).
Proof.
  unfold cleanup, conn_Close. cbv beta iota zeta.
  by destruct (GetCarByTCPConn _ _) as [[]|].
Qed.

Lemma on_error_closer stage err w :
  closer (conn (on_error stage err w)) = closer (conn w).
Proof. unfold on_error. by destruct (is_permanent_OpError err). Qed.

Lemma handler_returned_frame declared herr w :
  closer (conn (handler_returned declared herr w).1) = closer (conn w)
  ∧ cleanups (handler_returned declared herr w).1 = cleanups w.
Proof.
  destruct herr; simpl; [|done]. split; [done|].
  rewrite cleanups_emit. simpl. lia.
Qed.

Lemma after_handleConnection_frame err w :
  closer (conn (after_handleConnection err w)) = closer (conn w)
  ∧ cleanups (after_handleConnection err w) = cleanups w.
Proof.
  destruct err; simpl; [|done].
  by rewrite on_error_closer, on_error_cleanups.
Qed.

(** [handleConnection] neither touches [closer] nor runs a cleanup. *)
Lemma handleConnection_frame handlers n w :
  match handleConnection handlers n w with
  | Ret w' _ | Suspended w' | Stuck w' =>
      closer (conn w') = closer (conn w) ∧ cleanups w' = cleanups w
  end.
Proof.
  unfold handleConnection.
  destruct (conn_Read _ _) as [buf rest|err rest|]; [|done..].
  destruct (Packet_Read_MessageType buf) as [mt p].
  destruct (_ !! mt) as [h|]; simpl.
  - destruct (h_close _); simpl.
    + split; [done|]. unfold cleanups. simpl.
      rewrite filter_app, length_app. simpl. lia.
    + destruct (h_err _); simpl; (split; [done|]);
        unfold cleanups; simpl; rewrite ?filter_app, ?length_app; simpl; lia.
  - split; [done|]. unfold cleanups. simpl.
    rewrite filter_app, length_app. simpl. lia.
Qed.

(** What one step of the read loop does to [closer] and to the count of
    cleanups: either it receives the close signal at the [select], runs
    the cleanup once and returns; or it takes no token and runs no
    cleanup. *)
Lemma task_step_effect handlers w w' :
  task_step handlers w = Step w' →
  (Chan.buffered (closer (conn w)) = S (Chan.buffered (closer (conn w')))
   ∧ pc w = AtSelect ∧ pc w' = Returned ∧ cleanups w' = S (cleanups w))
  ∨ (Chan.buffered (closer (conn w)) ≤ Chan.buffered (closer (conn w'))
     ∧ cleanups w' = cleanups w).
Proof.
  unfold task_step. destruct (pc w) eqn:Hpc; try done.
  - destruct (Chan.try_recv _) as [ch|] eqn:Hrecv.
    + intros [= <-]. left.
      rewrite cleanup_closer, cleanup_pc, cleanups_cleanup. simpl.
      by apply try_recv_buffered in Hrecv.
    + right. destruct (binary_Read_uint16 _) as [n rest|err rest|].
      * pose proof (handleConnection_frame handlers n
                      (with_conn (with_incoming rest (conn w)) w)) as Hhc.
        destruct (handleConnection _ _ _) as [w1 err|w1|w1];
          injection H as <-; destruct Hhc as [Hc Hn].
        -- destruct (after_handleConnection_frame err w1) as [-> ->].
           rewrite Hc, Hn. by destruct w as [[]].
        -- rewrite Hc, Hn. by destruct w as [[]].
        -- rewrite Hc, Hn. by destruct w as [[]].
      * injection H as <-. rewrite on_error_closer, on_error_cleanups.
        by destruct w as [[]].
      * injection H as <-. by destruct w as [[]].
  - destruct (Chan.send _) as [ch|] eqn:Hsend; [|done].
    intros [= <-]. right. simpl. apply send_buffered in Hsend.
    split; [lia|]. by destruct w.
  - destruct (Chan.send _) as [ch|] eqn:Hsend; [|done].
    apply send_buffered in Hsend.
    set (w1 := with_conn (with_closer ch (conn w)) w).
    destruct (handler_returned_frame declared err w1) as [Hc Hn].
    destruct (handler_returned declared err w1) as [w2 err2]. simpl in Hc, Hn.
    intros [= <-]. right.
    destruct (after_handleConnection_frame err2 w2) as [-> ->].
    rewrite Hc, Hn. subst w1. simpl. split; [lia|]. by destruct w.
Qed.

(** The invariant of a connection under any interleaving. *)
Lemma act_invariant handlers a w :
  cleanups w ≤ 1 ∧ (pc w ≠ Returned → cleanups w = 0) →
  cleanups (act handlers a w) ≤ 1
  ∧ (pc (act handlers a w) ≠ Returned → cleanups (act handlers a w) = 0).
Proof.
  intros [Hle Hrun]. destruct a; simpl.
  - destruct (task_step handlers w) as [w'| |] eqn:Hstep; [|done..].
    destruct (decide (pc w = Returned)) as [Hret|Hne].
    { unfold task_step in Hstep. by rewrite Hret in Hstep. }
    specialize (Hrun Hne).
    apply task_step_effect in Hstep as [(_ & _ & Hpc & Hn)|[_ Hn]].
    + rewrite Hn, Hrun, Hpc. split; [lia|done].
    + rewrite Hn, Hrun. split; [lia|done].
  - destruct (Chan.send _); by destruct w.
  - by destruct w.
Qed.

Lemma exec_invariant handlers sched w :
  cleanups w ≤ 1 ∧ (pc w ≠ Returned → cleanups w = 0) →
  cleanups (exec handlers sched w) ≤ 1
  ∧ (pc (exec handlers sched w) ≠ Returned → cleanups (exec handlers sched w) = 0).
Proof.
  revert w. induction sched as [|a sched IH]; intros w Hw; [done|].
  simpl. apply IH. by apply act_invariant.
Qed.

(** C1: whatever the schedule of the read loop, of outside callers of
    [closeTCPConnection] and of other goroutines writing the car table, and
    whatever the transport delivers, the cleanup of a connection runs at
    most once, and once it has run the read loop has returned.  A token is
    taken from [closer] by the read loop only, at its [select], in the very
    step that runs the cleanup and returns. *)
Theorem cleanup_at_most_once handlers sched id script cs :
  let w := exec handlers sched (spawn id script cs) in
  cleanups w ≤ 1
  ∧ (cleanups w = 1 → pc w = Returned)
  ∧ ∀ a w0,
      Chan.buffered (closer (conn (act handlers a w0)))
        < Chan.buffered (closer (conn w0)) →
      a = Owner
      ∧ pc w0 = AtSelect
      ∧ pc (act handlers a w0) = Returned
      ∧ cleanups (act handlers a w0) = S (cleanups w0).
Proof.
  intros w.
  destruct (exec_invariant handlers sched (spawn id script cs)) as [Hle Hrun].
  { split; [by vm_compute; lia|done]. }
  split; [done|]. split.
  - intros H1. destruct (decide (pc w = Returned)) as [|Hne]; [done|].
    specialize (Hrun Hne). subst w. lia.
  - intros a w0 Hlt. destruct a; simpl in *.
    + destruct (task_step handlers w0) as [w'| |] eqn:Hstep; [|lia..].
      apply task_step_effect in Hstep as [(_ & ? & ? & ?)|[? _]]; [done|lia].
    + destruct (Chan.send _) as [ch|] eqn:Hsend; [|lia].
      apply send_buffered in Hsend. simpl in Hlt. lia.
    + simpl in Hlt. lia.
Qed.

Lemma cleanup_at_most_once_witness :
  let w := exec sample_handlers [Owner; Owner; ExternalClose; Owner; Owner]
             (spawn 0 [RErr (OpError false)] [occupied_car]) in
  cleanups w ≤ 1
  ∧ (cleanups w = 1 → pc w = Returned)
  ∧ pc closing_world = AtSelect
  ∧ pc (act sample_handlers Owner closing_world) = Returned
  ∧ cleanups (act sample_handlers Owner closing_world) = S (cleanups closing_world).
Proof.
  destruct (cleanup_at_most_once sample_handlers
              [Owner; Owner; ExternalClose; Owner; Owner] 0
              [RErr (OpError false)] [occupied_car]) as (Hle & Hret & Hrecv).
  split; [exact Hle|]. split; [exact Hret|].
  apply (Hrecv Owner closing_world). vm_compute. lia.
Defined.

(** Both triggers at once: the peer resets the connection while another
    goroutine calls [closeTCPConnection].  Whichever order the scheduler
    picks, there is one cleanup or none. *)
Example both_triggers_error_first :
  let w := exec sample_handlers [Owner; Owner; ExternalClose; Owner; Owner]
             (spawn 0 [RErr (OpError false)] [occupied_car]) in
  cleanups w = 1 ∧ pc w = Returned ∧ Chan.buffered (closer (conn w)) = 0.
Proof. by vm_compute. Qed.

(** When the outside close lands between the failed read and the loop's
    own send, the loop's send finds the buffer full: the goroutine waits
    there for good and the cleanup never runs. *)
Example both_triggers_external_first :
  let w := exec sample_handlers [Owner; ExternalClose; Owner; Owner; Owner]
             (spawn 0 [RErr (OpError false)] [occupied_car]) in
  cleanups w = 0 ∧ pc w = AtSendCloser ∧ Chan.buffered (closer (conn w)) = 1
  ∧ task_step sample_handlers w = Blocked.
Proof. by vm_compute. Qed.

(** ** Order of dispatch *)

Lemma put_le_uint16_spec n :
  (n < 65536)%N →
  ∃ b0 b1, put_le_uint16 n = [b0; b1] ∧ le_uint16 b0 b1 = n.
Proof.
  intros Hn. unfold put_le_uint16, le_uint16.
  destruct (Byte.of_N (n mod 256)) as [b0|] eqn:H0.
  2:{ apply Byte.of_N_None_iff in H0.
      pose proof (N.mod_upper_bound n 256). exfalso. lia. }
  destruct (Byte.of_N ((n / 256) mod 256)) as [b1|] eqn:H1.
  2:{ apply Byte.of_N_None_iff in H1.
      pose proof (N.mod_upper_bound (n / 256) 256). exfalso. lia. }
  exists b0, b1. split; [done|].
  apply Byte.to_of_N in H0, H1. rewrite H0, H1.
  rewrite (N.mod_small (n / 256)).
  - rewrite N.add_comm. symmetry. apply N.div_mod. lia.
  - apply N.Div0.div_lt_upper_bound. lia.
Qed.

(** Reading one whole frame off the front of what has arrived. *)
Lemma read_frame f more tl :
  fits f →
  ∃ mid,
    binary_Read_uint16 (push_back (frame f ++ more) tl)
    = LenOk (N.of_nat (S (length f.2))) mid
    ∧ conn_Read (N.to_nat (N.of_nat (S (length f.2)))) mid
      = ROk (f.1 :: f.2) (push_back more tl).
Proof.
  intros Hfits. unfold fits in Hfits. destruct f as [mt p]. simpl in *.
  destruct (put_le_uint16_spec (N.of_nat (S (length p)))) as (b0 & b1 & Hput & Hle);
    [done|].
  unfold frame. simpl. rewrite Hput. simpl.
  exists (RData (mt :: p ++ more) :: tl). split.
  - unfold binary_Read_uint16. simpl. by rewrite Hle.
  - rewrite Nat2N.id. simpl. f_equal.
    + f_equal. by rewrite take_app_length.
    + by rewrite drop_app_length.
Qed.

Lemma handler_returned_dispatched declared herr w :
  dispatched (handler_returned declared herr w).1 = dispatched w.
Proof.
  destruct herr; simpl; [|done].
  rewrite dispatched_emit. simpl. by rewrite app_nil_r.
Qed.

Lemma after_handleConnection_dispatched err w :
  dispatched (after_handleConnection err w) = dispatched w.
Proof. destruct err; simpl; [|done]. by rewrite on_error_dispatched. Qed.

(** Once the loop is winding down it dispatches nothing more. *)
Lemma winding_down_step handlers w w' :
  winding_down w →
  task_step handlers w = Step w' →
  winding_down w' ∧ dispatched w' = dispatched w.
Proof.
  intros Hw. unfold task_step. destruct (pc w) eqn:Hpc; try done.
  - destruct Hw as [|Hbuf]; [done|].
    destruct (Chan.try_recv _) as [ch|] eqn:Hrecv.
    + intros [= <-]. split.
      * left. by rewrite cleanup_pc.
      * rewrite dispatched_cleanup. by destruct w.
    + apply try_recv_None in Hrecv. lia.
  - destruct (Chan.send _) as [ch|] eqn:Hsend; [|done].
    intros [= <-]. apply send_buffered in Hsend. split.
    + right. simpl. lia.
    + by destruct w.
  - destruct (Chan.send _) as [ch|] eqn:Hsend; [|done].
    apply send_buffered in Hsend.
    set (w1 := with_conn (with_closer ch (conn w)) w).
    pose proof (handler_returned_dispatched declared err w1) as Hd.
    destruct (handler_returned_frame declared err w1) as [Hc _].
    destruct (handler_returned declared err w1) as [w2 err2]. simpl in Hc, Hd.
    intros [= <-]. split.
    + right. destruct (after_handleConnection_frame err2 w2) as [-> _].
      rewrite Hc. subst w1. simpl. lia.
    + rewrite after_handleConnection_dispatched, Hd. by destruct w.
Qed.

Lemma winding_down_run handlers fuel w :
  winding_down w → dispatched (run handlers fuel w) = dispatched w.
Proof.
  revert w. induction fuel as [|fuel IH]; intros w Hw; [done|].
  simpl. destruct (task_step handlers w) as [w'| |] eqn:Hstep; [|done..].
  destruct (winding_down_step _ _ _ Hw Hstep) as [Hw' <-]. by apply IH.
Qed.

(** The round of the loop on the first of the frames ahead: the message
    goes to its handler if it has one, and the loop is then either on
    track for the remaining frames or winding down. *)
Lemma on_track_step handlers f fs gs w :
  fits f →
  on_track (f :: fs) gs w →
  ∃ w',
    task_step handlers w = Step w'
    ∧ dispatched w' = dispatched w ++ deliveries handlers [f]
    ∧ (on_track fs gs w' ∨ winding_down w')
    ∧ (handlers_succeed handlers →
       on_track fs gs w'
       ∧ self (conn w') = self (conn w)
       ∧ cars w' = serve handlers (self (conn w)) [f] (cars w)).
Proof.
  intros Hfits (Hpc & Hbuf & Hin).
  destruct (read_frame f (stream fs) (segments gs) Hfits) as (mid & Hlen & Hread).
  change (stream (f :: fs)) with (frame f ++ stream fs) in Hin.
  rewrite <- Hin in Hlen.
  apply try_recv_None in Hbuf as Hrecv.
  rewrite (task_step_frame handlers w _ mid Hpc Hrecv Hlen).
  destruct f as [mt p]. cbn [fst snd] in *.
  unfold deliveries. rewrite filter_cons, filter_nil. cbn [fst snd].
  unfold handleConnection. cbn [incoming conn with_conn with_incoming].
  rewrite Hread. cbn [Packet_Read_MessageType].
  destruct (handlers !! Byte.to_N mt) as [h|] eqn:Hh.
  - rewrite decide_True by eauto.
    cbn [self cars with_incoming with_conn conn].
    set (r := OnMessage h (self (conn w)) p (cars w)).
    destruct (h_close r) eqn:Hclose.
    + eexists. split; [done|]. split; [|split].
      * unfold dispatched. simpl. by rewrite omap_app.
      * right. by left.
      * intros Hok. destruct (Hok _ _ (self (conn w)) p (cars w) Hh) as [_ Hc].
        unfold r in Hclose. congruence.
    + destruct (h_err r) as [err|] eqn:Herr; simpl.
      * eexists. split; [done|]. split; [|split].
        -- rewrite on_error_dispatched. unfold dispatched. simpl.
           rewrite !omap_app. simpl. by rewrite app_nil_r.
        -- right. left. unfold on_error.
           by destruct (is_permanent_OpError err).
        -- intros Hok. destruct (Hok _ _ (self (conn w)) p (cars w) Hh) as [He _].
           unfold r in Herr. congruence.
      * eexists. split; [done|]. split; [|split].
        -- unfold dispatched. simpl. by rewrite omap_app.
        -- left. by repeat split.
        -- intros _. split; [by repeat split|]. split; [done|].
           unfold serve. simpl. by rewrite Hh.
  - rewrite decide_False by (intros [? ?]; done).
    eexists. split; [done|]. split; [|split].
    + unfold dispatched. simpl. rewrite omap_app. simpl. by rewrite !app_nil_r.
    + left. by repeat split.
    + intros _. split; [by repeat split|]. split; [done|].
      unfold serve. simpl. by rewrite Hh.
Qed.

(** With no frame ahead and none to come the loop waits in its read and
    dispatches nothing. *)
Lemma on_track_nil handlers fuel w :
  on_track [] [] w → dispatched (run handlers fuel w) = dispatched w.
Proof.
  intros (Hpc & Hbuf & Hin). destruct fuel; [done|]. simpl.
  apply try_recv_None in Hbuf.
  unfold task_step. rewrite Hpc, Hbuf, Hin. simpl.
  by rewrite run_InRead.
Qed.

Lemma on_track_nil_cars handlers fuel w :
  on_track [] [] w → cars (run handlers fuel w) = cars w.
Proof.
  intros (Hpc & Hbuf & Hin). destruct fuel; [done|]. simpl.
  apply try_recv_None in Hbuf.
  unfold task_step. rewrite Hpc, Hbuf, Hin. simpl.
  by rewrite run_InRead.
Qed.

Lemma serve_cons handlers id f fs cs :
  serve handlers id (f :: fs) cs = serve handlers id fs (serve handlers id [f] cs).
Proof. done. Qed.

Lemma deliveries_cons handlers f fs :
  deliveries handlers (f :: fs) = deliveries handlers [f] ++ deliveries handlers fs.
Proof.
  unfold deliveries. rewrite !filter_cons, filter_nil.
  case_decide; by simpl.
Qed.

(** When the frames that have arrived are used up, the next segment is
    the next run of frames ahead. *)
Lemma on_track_next_segment g gs w : on_track [] (g :: gs) w → on_track g gs w.
Proof. done. Qed.

Lemma on_track_prefix handlers gs : ∀ fs fuel w,
  Forall fits (fs ++ concat gs) →
  on_track fs gs w →
  ∃ l, dispatched (run handlers fuel w) = dispatched w ++ l
       ∧ l `prefix_of` deliveries handlers (fs ++ concat gs).
Proof.
  induction gs as [|g gs IHg]; intros fs;
    induction fs as [|f fs IHf]; intros fuel w Hfits Hw.
  - exists []. rewrite (on_track_nil _ _ _ Hw). by rewrite app_nil_r.
  - destruct fuel as [|fuel].
    { exists []. simpl. rewrite app_nil_r. split; [done|]. apply prefix_nil. }
    simpl in Hfits. apply Forall_cons in Hfits as [Hf Hfs].
    destruct (on_track_step handlers f fs [] w Hf Hw)
      as (w' & Hstep & Hd & Hnext & _).
    cbn [run app]. rewrite Hstep, deliveries_cons.
    destruct Hnext as [Hon|Hdown].
    + destruct (IHf fuel w' Hfs Hon) as (l & Hl & Hpre).
      exists (deliveries handlers [f] ++ l). split.
      * by rewrite Hl, Hd, app_assoc.
      * by apply prefix_app.
    + exists (deliveries handlers [f]). split.
      * by rewrite (winding_down_run _ _ _ Hdown).
      * by apply prefix_app_r.
  - apply (IHg g fuel w Hfits). by apply on_track_next_segment.
  - destruct fuel as [|fuel].
    { exists []. simpl. rewrite app_nil_r. split; [done|]. apply prefix_nil. }
    simpl in Hfits. apply Forall_cons in Hfits as [Hf Hfs].
    destruct (on_track_step handlers f fs (g :: gs) w Hf Hw)
      as (w' & Hstep & Hd & Hnext & _).
    cbn [run app]. rewrite Hstep, deliveries_cons.
    destruct Hnext as [Hon|Hdown].
    + destruct (IHf fuel w' Hfs Hon) as (l & Hl & Hpre).
      exists (deliveries handlers [f] ++ l). split.
      * by rewrite Hl, Hd, app_assoc.
      * by apply prefix_app.
    + exists (deliveries handlers [f]). split.
      * by rewrite (winding_down_run _ _ _ Hdown).
      * by apply prefix_app_r.
Qed.

Lemma on_track_all handlers gs : ∀ fs fuel w,
  handlers_succeed handlers →
  Forall fits (fs ++ concat gs) →
  on_track fs gs w →
  length (fs ++ concat gs) ≤ fuel →
  dispatched (run handlers fuel w)
  = dispatched w ++ deliveries handlers (fs ++ concat gs)
  ∧ cars (run handlers fuel w)
    = serve handlers (self (conn w)) (fs ++ concat gs) (cars w).
Proof.
  induction gs as [|g gs IHg]; intros fs;
    induction fs as [|f fs IHf]; intros fuel w Hok Hfits Hw Hfuel.
  - rewrite (on_track_nil _ _ _ Hw), (on_track_nil_cars _ _ _ Hw).
    by rewrite app_nil_r.
  - destruct fuel as [|fuel]; [simpl in Hfuel; lia|].
    simpl in Hfits. apply Forall_cons in Hfits as [Hf Hfs].
    destruct (on_track_step handlers f fs [] w Hf Hw)
      as (w' & Hstep & Hd & _ & Hon).
    destruct (Hon Hok) as (Hon' & Hself & Hcars).
    cbn [run app]. rewrite Hstep, deliveries_cons, serve_cons.
    destruct (IHf fuel w' Hok Hfs Hon') as [-> ->]; [simpl in Hfuel |- *; lia|].
    by rewrite Hd, app_assoc, Hself, Hcars.
  - apply (IHg g fuel w Hok Hfits); [|done]. by apply on_track_next_segment.
  - destruct fuel as [|fuel]; [simpl in Hfuel; lia|].
    simpl in Hfits. apply Forall_cons in Hfits as [Hf Hfs].
    destruct (on_track_step handlers f fs (g :: gs) w Hf Hw)
      as (w' & Hstep & Hd & _ & Hon).
    destruct (Hon Hok) as (Hon' & Hself & Hcars).
    cbn [run app]. rewrite Hstep, deliveries_cons, serve_cons.
    destruct (IHf fuel w' Hok Hfs Hon') as [-> ->]; [simpl in Hfuel |- *; lia|].
    by rewrite Hd, app_assoc, Hself, Hcars.
Qed.

Lemma spawn_on_track id gs cs : on_track [] gs (spawn id (segments gs) cs).
Proof. done. Qed.

(** The frames of a stream whose reads never cut a frame reach the
    handlers in the order they were sent, and each handler works on the car
    table the one before it left.  For a stream of frames that arrives in
    segments [gs], each a run of whole frames, what the read loop has
    dispatched after any number of steps is an initial segment of the
    messages of the stream (those whose type has a handler), in the order
    sent.  When no handler fails or closes the connection, once the loop
    has taken one step per frame it has dispatched all of them, and the
    car table is the one the handlers produce when they are run on the
    frames one after the other, in that order.  The loop is one
    sequential task: each step handles one frame to the end before the
    next begins. *)
Theorem frames_dispatched_in_order handlers gs id cs :
  Forall fits (concat gs) →
  let w := spawn id (segments gs) cs in
  (∀ fuel, dispatched (run handlers fuel w)
             `prefix_of` deliveries handlers (concat gs))
  ∧ (handlers_succeed handlers →
     ∀ fuel, length (concat gs) ≤ fuel →
       dispatched (run handlers fuel w) = deliveries handlers (concat gs)
       ∧ cars (run handlers fuel w) = serve handlers id (concat gs) cs).
Proof.
  intros Hfits w. subst w.
  pose proof (spawn_on_track id gs cs) as Hon. split.
  - intros fuel.
    destruct (on_track_prefix handlers gs [] fuel _ Hfits Hon) as (l & -> & Hpre).
    done.
  - intros Hok fuel Hfuel.
    exact (on_track_all handlers gs [] fuel _ Hok Hfits Hon Hfuel).
Qed.

Lemma marking_handlers_succeed : handlers_succeed marking_handlers.
Proof.
  intros mt h id p cs Hh. unfold marking_handlers, initMessageHandlers in Hh.
  simpl in Hh. apply lookup_insert_Some in Hh as [[_ <-]|[_ Hh]]; done.
Qed.

(** Three frames in two segments, the second of a type nobody handles:
    the two messages of type 7 are dispatched in the order sent, and the
    lap count of the connection's car shows both marks in that order,
    (5 * 2 + 1) * 2 + 2. *)
Lemma frames_dispatched_in_order_witness :
  let gs := [[(x07, [x01]); (x63, [])]; [(x07, [x02; x03])]] in
  let w := spawn 0 (segments gs) [occupied_car] in
  (∀ fuel, dispatched (run marking_handlers fuel w)
             `prefix_of` [(7%N, [x01]); (7%N, [x02; x03])])
  ∧ dispatched (run marking_handlers 3 w) = [(7%N, [x01]); (7%N, [x02; x03])]
  ∧ cars (run marking_handlers 3 w)
    = [{| CarID := 3%N; car_Connection := {| conn_tcp := Some 0 |};
          ChecksumVerified := true; Tyres := "SM"; LapCount := 24%N |}].
Proof.
  intros gs w.
  destruct (frames_dispatched_in_order marking_handlers gs 0 [occupied_car])
    as [Hpre Hall].
  - repeat constructor; unfold fits; simpl; lia.
  - split; [exact Hpre|].
    apply (Hall marking_handlers_succeed 3). simpl. lia.
Defined.

Example three_frames_in_order :
  dispatched (run sample_handlers 3
    (spawn 0 (segments [[(x07, [x01])]; [(x07, [x02]); (x07, [x03])]]) []))
  = [(7%N, [x01]); (7%N, [x02]); (7%N, [x03])].
Proof. reflexivity. Qed.

(** ** Shutting the listener *)

Lemma relog_emit o es w : emit es (relog o w) = relog o (emit es w).
Proof. unfold emit, relog. simpl. by rewrite app_assoc. Qed.

Lemma relog_with_conn o c w : with_conn c (relog o w) = relog o (with_conn c w).
Proof. done. Qed.

Lemma relog_task_return o w : task_return (relog o w) = relog o (task_return w).
Proof. unfold task_return, relog. simpl. by rewrite app_assoc. Qed.

Lemma relog_cleanup o w : cleanup (relog o w) = relog o (cleanup w).
Proof.
  unfold cleanup, conn_Close. cbv beta iota zeta.
  cbn [conn cars emit relog self].
  destruct (GetCarByTCPConn _ _) as [[slot car]|];
    unfold task_return, conn_Close, relog, goto, emit, with_conn, with_cars;
    simpl; by rewrite <- !app_assoc.
Qed.

Lemma relog_on_error o stage err w :
  on_error stage err (relog o w) = relog o (on_error stage err w).
Proof.
  unfold on_error. destruct (is_permanent_OpError err); [done|].
  by rewrite relog_emit, relog_task_return.
Qed.

Lemma relog_after_handleConnection o err w :
  after_handleConnection err (relog o w) = relog o (after_handleConnection err w).
Proof. destruct err; [|done]. apply relog_on_error. Qed.

Lemma relog_handleConnection o handlers n w :
  handleConnection handlers n (relog o w)
  = match handleConnection handlers n w with
    | Ret w' err => Ret (relog o w') err
    | Suspended w' => Suspended (relog o w')
    | Stuck w' => Stuck (relog o w')
    end.
Proof.
  unfold handleConnection. cbn [conn relog incoming].
  destruct (conn_Read _ _) as [buf rest|err rest|]; [|done..].
  destruct (Packet_Read_MessageType buf) as [mt p].
  destruct (handlers !! mt) as [h|]; cbn [conn relog cars self with_conn].
  - destruct (h_close _).
    + unfold relog, goto, emit, with_cars. simpl. by rewrite app_assoc.
    + destruct (h_err _); unfold relog, handler_returned, emit; simpl;
        by rewrite <- ?app_assoc.
  - unfold relog, emit. simpl. by rewrite app_assoc.
Qed.

(** What the read loop does next does not depend on what has been logged
    so far: an earlier log only sits in front of what the step logs. *)
Lemma task_step_relog handlers o w :
  task_step handlers (relog o w) = relog_outcome o (task_step handlers w).
Proof.
  unfold task_step. cbn [pc relog conn].
  destruct (pc w) as [| | |declared herr|]; try done.
  - destruct (Chan.try_recv _) as [ch|].
    + simpl. f_equal. apply (relog_cleanup o (with_conn _ w)).
    + destruct (binary_Read_uint16 _) as [n rest|err rest|]; simpl.
      * rewrite relog_with_conn, relog_handleConnection.
        destruct (handleConnection _ _ _); simpl; [|done..].
        by rewrite relog_after_handleConnection.
      * by rewrite relog_with_conn, relog_on_error.
      * done.
  - by destruct (Chan.send _).
  - destruct (Chan.send _) as [ch|]; [|done].
    rewrite relog_with_conn.
    destruct herr; simpl; [|done].
    by rewrite relog_emit, relog_on_error.
Qed.

(** C7: [Close] puts the token on [closed] and closes the listener, and
    touches nothing else: the connections, their read loops and the car
    table are as before, and every read loop takes the same next step as
    it would have taken without the [Close].  The accept loop, whose next
    accept fails on the closed listener, takes the token and returns
    without a log line.  Without the token an accept failure is logged and
    the loop keeps accepting. *)
Theorem Close_stops_accepting_only t :
  listener t = true →
  closed t = Chan.make 1 →
  accept_loop t = Accepting →
  ∃ t' res,
    Close t = Some (t', res)
    ∧ listener t' = false
    ∧ Chan.buffered (closed t') = 1
    ∧ conns t' = conns t
    ∧ state t' = state t
    ∧ logger t' = logger t ++ [EvLog ClosingListener]
    ∧ (∀ i, conns (conn_step i t') = conns (conn_step i t)
            ∧ state (conn_step i t') = state (conn_step i t))
    ∧ (∀ env,
         accept_loop (accept_step env t') = AcceptReturned
         ∧ logger (accept_step env t') = logger t'
         ∧ conns (accept_step env t') = conns t)
    ∧ (∀ err,
         accept_loop (accept_step (AcceptFailed err) t) = Accepting
         ∧ logger (accept_step (AcceptFailed err) t)
           = logger t ++ [EvLog (CouldNotAccept err)]
         ∧ conns (accept_step (AcceptFailed err) t) = conns t).
Proof.
  intros Hlis Hclosed Hacc. unfold Close. rewrite Hclosed, Hlis. simpl.
  eexists _, _. split; [reflexivity|]. simpl.
  split; [done|]. split; [done|]. split; [done|]. split; [done|].
  split; [done|]. split; [|split].
  - intros i. unfold conn_step. simpl.
    destruct (conns t !! i) as [[c p]|]; [|done].
    set (w0 := {| conn := c; pc := p; cars := state t; out := [] |}).
    replace {| conn := c; pc := p; cars := state t;
               out := logger t ++ [EvLog ClosingListener] |}
      with (relog (logger t ++ [EvLog ClosingListener]) w0)
      by (unfold relog, w0; simpl; by rewrite app_nil_r).
    replace {| conn := c; pc := p; cars := state t; out := logger t |}
      with (relog (logger t) w0)
      by (unfold relog, w0; simpl; by rewrite app_nil_r).
    rewrite !task_step_relog.
    by destruct (task_step (messageHandlers t) w0).
  - intros env. unfold accept_step. by rewrite Hacc.
  - intros err. unfold accept_step, AcceptTCP. by rewrite Hacc, Hclosed, Hlis.
Qed.

Lemma Close_stops_accepting_only_witness :
  ∃ t' res,
    Close busy_server = Some (t', res)
    ∧ listener t' = false
    ∧ Chan.buffered (closed t') = 1
    ∧ conns t' = conns busy_server
    ∧ state t' = state busy_server
    ∧ logger t' = logger busy_server ++ [EvLog ClosingListener]
    ∧ (∀ i, conns (conn_step i t') = conns (conn_step i busy_server)
            ∧ state (conn_step i t') = state (conn_step i busy_server))
    ∧ (∀ env,
         accept_loop (accept_step env t') = AcceptReturned
         ∧ logger (accept_step env t') = logger t'
         ∧ conns (accept_step env t') = conns busy_server)
    ∧ (∀ err,
         accept_loop (accept_step (AcceptFailed err) busy_server) = Accepting
         ∧ logger (accept_step (AcceptFailed err) busy_server)
           = logger busy_server ++ [EvLog (CouldNotAccept err)]
         ∧ conns (accept_step (AcceptFailed err) busy_server) = conns busy_server).
Proof.
  apply (Close_stops_accepting_only busy_server); reflexivity.
Defined.

(** The read loops go on after [Close]: connection 0 of the sample server
    still has its frame dispatched. *)
Example read_loop_survives_Close :
  (λ '(t', _), (logger (conn_step 0 t'), snd <$> conns (conn_step 0 t')))
    <$> Close busy_server
  = Some ([EvLog ClosingListener; EvDispatch 0 7%N [x01]], [AtSelect; AtSendCloser]).
Proof. reflexivity. Qed.

(** ** Closing with an error message *)

(** C10: [closeTCPConnectionWithError], on any connection in any state.
    When the write of the frame fails, the write error is returned, nothing
    has been written and nothing sent on [closer]: the connection is as it
    was.  When the write succeeds, the frame that holds the error message
    type alone has been written in every case, before the close signal is
    tried: on a [tcpConn] whose [closer] has room the signal is buffered
    (one token more, nothing else changed) and [nil] is returned; on a
    [tcpConn] whose [closer] is full the call blocks at the send, with the
    frame already written; on any other connection [nil] is returned with
    the frame written and no signal.  A read loop at its [select] receives
    the buffered signal at its next step and runs the cleanup, and after a
    failed write its next step is what it was before the call. *)
Theorem closeTCPConnectionWithError_write_then_signal nc errorMessage :
  (∀ err,
     closeTCPConnectionWithError nc errorMessage (Some err)
     = CloseReturned nc [] (Some err))
  ∧ closeTCPConnectionWithError nc errorMessage None
    = match nc with
      | IsTcpConn c =>
          if decide (Chan.buffered (closer c) < Chan.cap (closer c))
          then CloseReturned
                 (IsTcpConn {| self := self c; open := open c;
                               incoming := incoming c;
                               closer := Chan.mk (Chan.cap (closer c))
                                           (S (Chan.buffered (closer c))) |})
                 [[x01; x00; errorMessage]] None
          else CloseBlocked [[x01; x00; errorMessage]]
      | OtherConn _ => CloseReturned nc [[x01; x00; errorMessage]] None
      end
  ∧ ∀ handlers w,
      nc = IsTcpConn (conn w) →
      pc w = AtSelect →
      (∀ err conn' sent res,
         closeTCPConnectionWithError nc errorMessage (Some err)
         = CloseReturned conn' sent res →
         conn' = IsTcpConn (conn w) ∧ sent = [] ∧ res = Some err)
      ∧ ∀ c' sent res,
          closeTCPConnectionWithError nc errorMessage None
          = CloseReturned (IsTcpConn c') sent res →
          sent = [[x01; x00; errorMessage]]
          ∧ res = None
          ∧ task_step handlers (with_conn c' w)
            = Step (cleanup (with_conn (conn w) w))
          ∧ pc (run handlers 1 (with_conn c' w)) = Returned
          ∧ cleanups (run handlers 1 (with_conn c' w)) = S (cleanups w).
Proof.
  split; [done|]. split.
  { destruct nc as [c|id]; [|done].
    unfold closeTCPConnectionWithError, closeTCPConnection, Chan.send.
    by case_decide. }
  intros handlers w -> Hpc. split.
  { intros err conn' sent res [= <- <- <-]. done. }
  intros c' sent res.
  unfold closeTCPConnectionWithError, closeTCPConnection, Chan.send.
  case_decide as Hroom; [|done]. intros [= <- <- <-].
  split; [done|]. split; [done|].
  assert (Hstep : task_step handlers
                    (with_conn (with_closer (Chan.mk (Chan.cap (closer (conn w)))
                                               (S (Chan.buffered (closer (conn w)))))
                                  (conn w)) w)
                  = Step (cleanup (with_conn (conn w) w))).
  { unfold task_step. simpl. rewrite Hpc. simpl.
    by destruct w as [[? ? ? [? ?]] ? ? ?]. }
  split; [done|].
  cbn [run]. rewrite Hstep, cleanup_pc, cleanups_cleanup. by destruct w.
Qed.

Lemma closeTCPConnectionWithError_witness :
  let w := spawn 0 [] [occupied_car] in
  (∀ err conn' sent res,
     closeTCPConnectionWithError (IsTcpConn (conn w)) x0d (Some err)
     = CloseReturned conn' sent res →
     conn' = IsTcpConn (conn w) ∧ sent = [] ∧ res = Some err)
  ∧ ∀ c' sent res,
      closeTCPConnectionWithError (IsTcpConn (conn w)) x0d None
      = CloseReturned (IsTcpConn c') sent res →
      sent = [[x01; x00; x0d]]
      ∧ res = None
      ∧ task_step sample_handlers (with_conn c' w)
        = Step (cleanup (with_conn (conn w) w))
      ∧ pc (run sample_handlers 1 (with_conn c' w)) = Returned
      ∧ cleanups (run sample_handlers 1 (with_conn c' w)) = S (cleanups w).
Proof.
  apply (closeTCPConnectionWithError_write_then_signal
           (IsTcpConn (conn (spawn 0 [] [occupied_car]))) x0d);
    reflexivity.
Defined.

(** The call on a connection whose [closer] already holds a signal: the
    frame is written and the caller blocks at the send. *)
Example closeTCPConnectionWithError_full_closer :
  closeTCPConnectionWithError (IsTcpConn (conn closing_world)) x0d None
  = CloseBlocked [[x01; x00; x0d]].
Proof. reflexivity. Qed.

(** A connection that is no [tcpConn] has no [closer]: the frame is
    written and nothing else happens. *)
Example closeTCPConnectionWithError_other_conn :
  closeTCPConnectionWithError (OtherConn 5) x0d None
  = CloseReturned (OtherConn 5) [[x01; x00; x0d]] None.
Proof. reflexivity. Qed.

(** ** Short reads of the payload *)

(** One [Read] hands over what has arrived: fewer bytes than the buffer
    holds come back as a short count, not as an error. *)
Lemma conn_Read_short size bs rest :
  length bs < size →
  conn_Read size (RData bs :: rest) = ROk bs rest.
Proof.
  intros Hlt. destruct size as [|size]; [lia|]. unfold conn_Read.
  rewrite take_ge, drop_ge by lia. done.
Qed.

(** A payload read that comes back short is dispatched all the same: with
    a length prefix of [n] read and fewer than [n] bytes arrived, the bytes
    that are there go to the handler of their first byte. *)
Lemma short_read_is_dispatched handlers w n bs rest h :
  pc w = AtSelect →
  Chan.try_recv (closer (conn w)) = None →
  binary_Read_uint16 (incoming (conn w)) = LenOk n (RData bs :: rest) →
  length bs < N.to_nat n →
  handlers !! (Packet_Read_MessageType bs).1 = Some h →
  dispatched (run handlers 1 w) = dispatched w ++ [Packet_Read_MessageType bs].
Proof.
  intros Hpc Hrecv Hlen Hshort Hh. cbn [run].
  rewrite (task_step_frame _ _ _ _ Hpc Hrecv Hlen).
  unfold handleConnection. cbn [incoming conn with_conn with_incoming].
  rewrite (conn_Read_short _ _ _ Hshort).
  destruct (Packet_Read_MessageType bs) as [mt p]. cbn [fst] in Hh.
  rewrite Hh. cbn [self cars with_incoming with_conn conn].
  set (r := OnMessage h (self (conn w)) p (cars w)).
  destruct (h_close r).
  - unfold dispatched. simpl. by rewrite omap_app.
  - destruct (h_err r) as [err|]; simpl.
    + rewrite on_error_dispatched. unfold dispatched. simpl.
      rewrite !omap_app. simpl. by rewrite app_nil_r.
    + unfold dispatched. simpl. by rewrite omap_app.
Qed.

(** C2 at the input of Scenario B: the length prefix says 10, the peer
    sends 3 bytes and resets.  The payload read returns the 3 bytes without
    an error, and they are dispatched to the handler of type 7 as a
    complete message; the reset is met only by the next read of a length
    prefix. *)
Theorem short_payload_is_dispatched :
  let w := spawn 0 [RData [x0a; x00]; RData [x07; x01; x02];
                    RErr (OpError false)] [] in
  handleConnection sample_handlers 10
    (with_conn (with_incoming [RData [x07; x01; x02]; RErr (OpError false)]
                  (conn w)) w)
  = Ret (emit [EvDispatch 0 7%N [x01; x02]]
           (with_conn (with_incoming [RErr (OpError false)] (conn w)) w))
        None
  ∧ dispatched (run sample_handlers 1 w) = [(7%N, [x01; x02])]
  ∧ pc (run sample_handlers 1 w) = AtSelect
  ∧ out (run sample_handlers 4 w)
    = [EvDispatch 0 7%N [x01; x02]; EvCleanup 0; EvClose 0 None;
       EvLog CleanlyClosed; EvClose 0 (Some (OpError false))].
Proof. repeat split. Qed.

(** The same defect when the peer is slow rather than gone: a frame of
    four bytes that arrives in two segments is dispatched after the first
    segment, and the loop then takes the middle of the frame for the next
    length prefix. *)
Example short_payload_loses_framing :
  let w := spawn 0 [RData [x04; x00; x07; x01];
                    RData [x02; x03; x02; x00; x07; x09]] [] in
  out (run sample_handlers 2 w)
  = [EvDispatch 0 7%N [x01];
     EvLog (UnknownMessageType 2%N 4); EvStdout ("02000709" +:+ newline)].
Proof. reflexivity. Qed.

(** C8, at a stream whose first frame arrives in two reads.  A client
    sends the messages S1 = (7, 01 02), S2 = (7, 03), S3 = (7, 04) in that
    order.  When the bytes arrive in one piece the handler of type 7 is
    invoked on S1, S2, S3 in that order.  When the same bytes arrive cut
    after the fourth, [handleConnection] takes the two bytes its one
    [Read] returns for the whole of S1: the handler is invoked once, on
    the message (7, 01) that was never sent, the loop then reads the rest
    of S1 as a length prefix, reports what is left as a message of
    unknown type 0, and waits; S2 and S3 never reach their handler. *)
Theorem split_frame_is_not_dispatched_as_sent :
  let sent := [(x07, [x01; x02]); (x07, [x03]); (x07, [x04])] in
  let whole := spawn 0 [RData (stream sent)] [] in
  let split := spawn 0 [RData [x03; x00; x07; x01];
                        RData [x02; x02; x00; x07; x03; x02; x00; x07; x04]] [] in
  [x03; x00; x07; x01] ++ [x02; x02; x00; x07; x03; x02; x00; x07; x04]
  = stream sent
  ∧ (∀ fuel,
       dispatched (run sample_handlers (3 + fuel) whole)
       = [(7%N, [x01; x02]); (7%N, [x03]); (7%N, [x04])])
  ∧ (∀ fuel,
       dispatched (run sample_handlers (1 + fuel) split) = [(7%N, [x01])])
  ∧ (∀ fuel,
       pc (run sample_handlers (3 + fuel) split) = InRead
       ∧ incoming (conn (run sample_handlers (3 + fuel) split)) = []
       ∧ out (run sample_handlers (3 + fuel) split)
         = [EvDispatch 0 7%N [x01];
            EvLog (UnknownMessageType 0%N 7);
            EvStdout ("00070302000704" +:+ newline)]).
Proof.
  intros sent whole split.
  assert (Hwhole : ∀ fuel,
            run sample_handlers (4 + fuel) whole = run sample_handlers 4 whole).
  { intros fuel.
    change (run sample_handlers (4 + fuel) whole)
      with (run sample_handlers fuel (run sample_handlers 4 whole)).
    by rewrite run_InRead. }
  assert (Hsplit : ∀ fuel,
            run sample_handlers (3 + fuel) split = run sample_handlers 3 split).
  { intros fuel.
    change (run sample_handlers (3 + fuel) split)
      with (run sample_handlers fuel (run sample_handlers 3 split)).
    by rewrite run_InRead. }
  split; [reflexivity|]. split; [|split].
  - intros [|fuel]; [reflexivity|].
    change (3 + S fuel) with (4 + fuel). by rewrite (Hwhole fuel).
  - intros [|[|fuel]]; [reflexivity..|].
    change (1 + S (S fuel)) with (3 + fuel). by rewrite (Hsplit fuel).
  - intros fuel. by rewrite (Hsplit fuel).
Qed.

(** The length prefix itself is read in full: [binary.Read] keeps reading
    until it has both bytes, and reports a stream that ends in between. *)
Example length_prefix_is_read_in_full :
  binary_Read_uint16 [RData [x0a]; RData [x00]] = LenOk 10 []
  ∧ binary_Read_uint16 [RData [x0a]; RErr EOF] = LenFail ErrUnexpectedEOF [].
Proof. split; reflexivity. Qed.

(** ** The Resolver *)

Module ResolverFacts.
Import Resolver.

Lemma bind_Some {A B : Type} (c : M A) (k : A → M B) r b r' :
  (c ≫= k) r = Some (b, r') →
  ∃ a r1, c r = Some (a, r1) ∧ k a r1 = Some (b, r').
Proof.
  unfold mbind, M_bind. destruct (c r) as [[a r1]|]; [|done]. eauto.
Qed.

Lemma keeps_bind {A B : Type} (c : M A) (k : A → M B) :
  keeps_fields c → (∀ a, keeps_fields (k a)) → keeps_fields (c ≫= k).
Proof.
  intros Hc Hk r b r' Hrun f Hf.
  apply bind_Some in Hrun as (a & r1 & H1 & H2).
  eapply Hk; [exact H2|]. eapply Hc; [exact H1|done].
Qed.

Lemma keeps_ret {A : Type} (a : A) : keeps_fields (mret a : M A).
Proof. intros r a' r' [= _ <-] f Hf. done. Qed.

Lemma keeps_get f : keeps_fields (get f).
Proof. intros r a r' [= _ <-] g Hg. done. Qed.

Lemma keeps_set f p : keeps_fields (set f p).
Proof.
  intros r a r' [= _ <-] g Hg. simpl.
  destruct (decide (f = g)) as [->|Hne].
  - rewrite fn_lookup_insert. eauto.
  - by rewrite fn_lookup_insert_ne.
Qed.

Lemma keeps_New what args : keeps_fields (New what args).
Proof. intros r a r' [= _ <-] g Hg. done. Qed.

Lemma keeps_SetPlugin sp plugin : keeps_fields (SetPlugin sp plugin).
Proof. intros r a r' [= _ <-] g Hg. done. Qed.

Lemma keeps_go_run hub : keeps_fields (go_run hub).
Proof. intros r a r' [= _ <-] g Hg. done. Qed.

Lemma keeps_out_of_steps {A : Type} : keeps_fields (out_of_steps : M A).
Proof. intros r a r' Hrun. done. Qed.

Lemma keeps_memo guard target build :
  keeps_fields build → keeps_fields (memo guard target build).
Proof.
  intros Hb. unfold memo. apply keeps_bind; [apply keeps_get|].
  intros [p|]; [apply keeps_get|].
  apply keeps_bind; [done|]. intros _. apply keeps_get.
Qed.

Ltac keeps :=
  repeat first
    [ apply keeps_memo
    | apply keeps_get
    | apply keeps_set
    | apply keeps_New
    | apply keeps_SetPlugin
    | apply keeps_go_run
    | apply keeps_ret
    | assumption
    | apply keeps_bind; [|intros ?] ].

(** No resolve method ever sets a field back to [nil]. *)
Lemma resolve_keeps_fields perf fuel : ∀ m, keeps_fields (resolve perf fuel m).
Proof.
  induction fuel as [|fuel IH]; intros m; [apply keeps_out_of_steps|].
  destruct m; cbn [resolve]; try (keeps; apply IH).
  destruct perf; keeps; apply IH.
Qed.

Lemma establishes_set f p : establishes f (set f p).
Proof. intros r a r' [= _ <-]. simpl. rewrite fn_lookup_insert. eauto. Qed.

Lemma establishes_then {A B : Type} f (c : M A) (k : A → M B) :
  establishes f c → (∀ a, keeps_fields (k a)) → establishes f (c ≫= k).
Proof.
  intros Hc Hk r b r' Hrun.
  apply bind_Some in Hrun as (a & r1 & H1 & H2).
  eapply Hk; [exact H2|]. eapply Hc, H1.
Qed.

Lemma establishes_after {A B : Type} f (c : M A) (k : A → M B) :
  (∀ a, establishes f (k a)) → establishes f (c ≫= k).
Proof.
  intros Hk r b r' Hrun.
  apply bind_Some in Hrun as (a & r1 & H1 & H2). eapply Hk, H2.
Qed.

Ltac establishes perf :=
  repeat first
    [ apply establishes_set
    | apply establishes_then;
      [apply establishes_set|intros ?; keeps; apply (resolve_keeps_fields perf)]
    | apply establishes_after; intros ? ].

(** A method that guards on its own field returns that field, and the
    field is set when it returns. *)
Lemma memo_returns_field f build r v r' :
  establishes f build →
  memo f f build r = Some (v, r') →
  v = fields r' f ∧ is_Some (fields r' f).
Proof.
  intros Hb. unfold memo. intros Hrun.
  apply bind_Some in Hrun as (g & r1 & [= <- <-] & Hrun).
  destruct (fields r f) as [p|] eqn:Hf.
  - injection Hrun as <- <-. rewrite Hf. eauto.
  - apply bind_Some in Hrun as ([] & r2 & Hbuild & [= <- <-]).
    split; [done|]. eapply Hb, Hbuild.
Qed.

(** Every method but the three of [memoised_on] is, with steps left, a
    guard on its own field around a body that sets that field. *)
Lemma resolve_memoised perf fuel m f :
  memoised_on m = Some f →
  (m = resolveRaceControlHandler → perf = false) →
  ∃ build,
    resolve perf (S fuel) m = memo f f build ∧ establishes f build.
Proof.
  intros Hm Hperf.
  destruct m; try discriminate Hm; injection Hm as <-; cbn [resolve];
    try (eexists; split; [reflexivity|]; establishes perf).
  rewrite Hperf by done.
  eexists; split; [reflexivity|]; establishes perf.
Qed.

(** The sibling methods are idempotent: a second call of any resolve
    method other than [resolvePenaltiesManager] returns what the first
    call returned and leaves the resolver, with everything built so far,
    as it is. *)
Lemma resolve_idempotent perf m fuel fuel' r v r' :
  m ≠ resolvePenaltiesManager →
  resolve perf fuel m r = Some (v, r') →
  resolve perf (S fuel') m r' = Some (v, r').
Proof.
  intros Hm Hrun. destruct fuel as [|fuel]; [done|].
  destruct (decide (m = ResolveStore)) as [->|Hstore].
  { cbn [resolve] in *. by injection Hrun as <- <-. }
  destruct (decide (m = resolveRaceControlHandler ∧ perf = true)) as [[-> ->]|Hrch].
  { cbn [resolve] in *. by injection Hrun as <- <-. }
  assert (∃ f, memoised_on m = Some f) as [f Hf] by (destruct m; eauto; done).
  assert (m = resolveRaceControlHandler → perf = false) as Hperf.
  { intros ->. destruct perf; [|done]. by destruct Hrch. }
  destruct (resolve_memoised perf fuel m f Hf Hperf) as (build & Heq & Hest).
  destruct (resolve_memoised perf fuel' m f Hf Hperf) as (build' & Heq' & _).
  rewrite Heq in Hrun. rewrite Heq'.
  destruct (memo_returns_field f build r v r' Hest Hrun) as [-> [p Hp]].
  unfold memo, mbind, M_bind, get. simpl. rewrite Hp. simpl. by rewrite Hp.
Qed.

(** One call of [resolvePenaltiesManager] while [penaltiesHandler] is
    [nil]: a new instance, whatever [penaltiesManager] holds. *)
Lemma resolvePenaltiesManager_unguarded perf fuel r :
  fields r penaltiesHandler = None →
  resolve perf (S (S fuel)) resolvePenaltiesManager r
  = Some (Some (next r),
          {| fields := <[penaltiesManager := Some (next r)]> (fields r);
             reloadTemplates := reloadTemplates r;
             next := S (next r);
             constructions :=
               constructions r
               ++ [{| built := penaltiesManager; at_ptr := next r;
                      from := [fields r store] |}];
             plugins := plugins r;
             goroutines := goroutines r |}).
Proof.
  intros Hnil. cbn [resolve].
  unfold memo, mbind, M_bind, get, set, New. simpl. rewrite Hnil. simpl.
  by rewrite fn_lookup_insert.
Qed.

(** C9 at its failing input: on a resolver whose [penaltiesHandler] is
    still [nil], two calls of [resolvePenaltiesManager] in succession
    build two [PenaltiesManager] instances and return two different
    pointers; the guard looks at [penaltiesHandler], which neither call
    sets. *)
Theorem resolvePenaltiesManager_builds_twice perf fuel r :
  fields r penaltiesHandler = None →
  ∃ r1 r2,
    resolve perf (S (S fuel)) resolvePenaltiesManager r = Some (Some (next r), r1)
    ∧ resolve perf (S (S fuel)) resolvePenaltiesManager r1
      = Some (Some (S (next r)), r2)
    ∧ constructions r2
      = constructions r
        ++ [{| built := penaltiesManager; at_ptr := next r;
               from := [fields r store] |};
            {| built := penaltiesManager; at_ptr := S (next r);
               from := [fields r store] |}]
    ∧ fields r2 penaltiesHandler = None.
Proof.
  intros Hnil.
  eexists _, _. split; [by apply resolvePenaltiesManager_unguarded|].
  rewrite resolvePenaltiesManager_unguarded
    by (simpl; by rewrite fn_lookup_insert_ne).
  simpl. split; [done|]. split.
  - rewrite <- app_assoc. simpl. by rewrite fn_lookup_insert_ne.
  - by rewrite !fn_lookup_insert_ne.
Qed.

Lemma resolvePenaltiesManager_builds_twice_witness :
  ∃ r1 r2,
    resolve false 2 resolvePenaltiesManager (literal false) = Some (Some 2, r1)
    ∧ resolve false 2 resolvePenaltiesManager r1 = Some (Some 3, r2)
    ∧ constructions r2
      = [{| built := penaltiesManager; at_ptr := 2; from := [Some 1] |};
         {| built := penaltiesManager; at_ptr := 3; from := [Some 1] |}]
    ∧ fields r2 penaltiesHandler = None.
Proof.
  apply (resolvePenaltiesManager_builds_twice false 0 (literal false)).
  reflexivity.
Defined.

(** What the defect does to the wired application: after [NewResolver]
    and [ResolveRouter] there are two [PenaltiesManager] instances; the
    [RaceControl] holds the first, the [PenaltiesHandler] the second. *)
Example ResolveRouter_two_PenaltiesManagers :
  (r ← NewResolver false 50 false;
   '(_, r') ← ResolveRouter false 50 r;
   Some (at_ptr <$> built_as penaltiesManager r',
         from <$> built_as raceControl r',
         from <$> built_as penaltiesHandler r'))
  = Some ([11; 28],
          [[Some 10; Some 6; Some 1; Some 11]],
          [[Some 18; Some 28]]).
Proof. by vm_compute. Qed.

(** The sibling [resolveRaceManager] on the same resolver: one instance,
    returned again by the second call. *)
Example resolveRaceManager_twice :
  (r ← NewResolver false 50 false;
   '(a, r1) ← resolve false 50 resolveRaceManager r;
   '(b, r2) ← resolve false 50 resolveRaceManager r1;
   Some (a, b, length (built_as raceManager r2)))
  = Some (Some 13, Some 13, 1).
Proof. by vm_compute. Qed.
End ResolverFacts.

(** * Further properties of the connection manager *)

(** ** The handler registry *)

Lemma initMessageHandlers_foldl hs : ∀ (m : gmap N TCPMessageHandler) mt h,
  foldl (λ m h, <[handler_MessageType h := h]> m) m hs !! mt = Some h →
  m !! mt = Some h ∨ (handler_MessageType h = mt ∧ h ∈ hs).
Proof.
  induction hs as [|h0 hs IH]; intros m mt h Hlook; [by left|].
  simpl in Hlook. apply IH in Hlook as [Hlook|[Hty Hin]].
  - apply lookup_insert_Some in Hlook as [[<- <-]|[_ Hm]].
    + right. split; [done|]. apply list_elem_of_here.
    + by left.
  - right. split; [done|]. by apply list_elem_of_further.
Qed.

Lemma initMessageHandlers_foldl_is_Some hs : ∀ (m : gmap N TCPMessageHandler) mt,
  is_Some (foldl (λ m h, <[handler_MessageType h := h]> m) m hs !! mt)
  ↔ is_Some (m !! mt) ∨ ∃ h, h ∈ hs ∧ handler_MessageType h = mt.
Proof.
  induction hs as [|h0 hs IH]; intros m mt; simpl.
  - split; [by left|]. intros [?|(h & Hin & _)]; [done|]. by apply elem_of_nil in Hin.
  - rewrite IH. split.
    + intros [Hm|(h & Hin & Hty)].
      * destruct (decide (handler_MessageType h0 = mt)) as [<-|Hne].
        -- right. exists h0. split; [apply list_elem_of_here|done].
        -- left. by rewrite lookup_insert_ne in Hm.
      * right. exists h. split; [by apply list_elem_of_further|done].
    + intros [Hm|(h & Hin & Hty)].
      * left. destruct (decide (handler_MessageType h0 = mt)) as [<-|Hne].
        -- rewrite lookup_insert_eq. eauto.
        -- by rewrite lookup_insert_ne.
      * apply elem_of_cons in Hin as [->|Hin].
        -- left. rewrite <- Hty, lookup_insert_eq. eauto.
        -- right. eauto.
Qed.

(** The registry [initMessageHandlers] builds: a handler is found under
    its own declared message type only and comes from the list; a type is
    registered exactly when some handler of the list declares it; and of
    two handlers that declare the same type the later one is kept. *)
Theorem initMessageHandlers_registry hs :
  (∀ mt h, initMessageHandlers hs !! mt = Some h →
           handler_MessageType h = mt ∧ h ∈ hs)
  ∧ (∀ mt, is_Some (initMessageHandlers hs !! mt)
           ↔ ∃ h, h ∈ hs ∧ handler_MessageType h = mt)
  ∧ (∀ hs1 h hs2,
       hs = hs1 ++ h :: hs2 →
       (∀ h', h' ∈ hs2 → handler_MessageType h' ≠ handler_MessageType h) →
       initMessageHandlers hs !! handler_MessageType h = Some h).
Proof.
  unfold initMessageHandlers. split; [|split].
  - intros mt h Hlook.
    apply initMessageHandlers_foldl in Hlook as [Hlook|?]; [|done].
    by rewrite lookup_empty in Hlook.
  - intros mt. rewrite initMessageHandlers_foldl_is_Some.
    split; [|by right]. intros [Hm|?]; [|done].
    rewrite lookup_empty in Hm. by destruct Hm.
  - intros hs1 h hs2 -> Hlater. rewrite foldl_app. simpl.
    set (m := foldl _ ∅ hs1).
    destruct (foldl _ (<[handler_MessageType h := h]> m) hs2
                !! handler_MessageType h) as [h'|] eqn:Hlook.
    + apply initMessageHandlers_foldl in Hlook as [Hlook|[Hty Hin]].
      * rewrite lookup_insert_eq in Hlook. by injection Hlook as ->.
      * by destruct (Hlater h' Hin).
    + assert (is_Some (foldl (λ m h, <[handler_MessageType h := h]> m)
                         (<[handler_MessageType h := h]> m) hs2
                         !! handler_MessageType h)) as [x Hx].
      { apply initMessageHandlers_foldl_is_Some. left.
        rewrite lookup_insert_eq. eauto. }
      congruence.
Qed.

Lemma initMessageHandlers_registry_witness :
  initMessageHandlers
    [const_handler 7%N false None; const_handler 7%N true None]
    !! 7%N
  = Some (const_handler 7%N true None).
Proof.
  destruct (initMessageHandlers_registry
              [const_handler 7%N false None; const_handler 7%N true None])
    as (_ & _ & Hlast).
  apply (Hlast [const_handler 7%N false None] (const_handler 7%N true None) []).
  - reflexivity.
  - intros h' Hin. by apply elem_of_nil in Hin.
Defined.

(** ** What the cleanup touches *)

(** The cleanup releases a slot of its own connection and no other:
    every slot assigned to another connection, or to none, is left exactly
    as it was, the table keeps its length, and a slot that did change was
    assigned to the connection being closed and has had its [Connection]
    reset, nothing else. *)
Theorem cleanup_spares_other_connections handlers w ch w' :
  pc w = AtSelect →
  Chan.try_recv (closer (conn w)) = Some ch →
  task_step handlers w = Step w' →
  length (cars w') = length (cars w)
  ∧ (∀ j car,
       cars w !! j = Some car →
       conn_tcp (car_Connection car) ≠ Some (self (conn w)) →
       cars w' !! j = Some car)
  ∧ (∀ j car,
       cars w !! j = Some car →
       cars w' !! j ≠ Some car →
       conn_tcp (car_Connection car) = Some (self (conn w))
       ∧ cars w' !! j = Some (clear_Connection car)).
Proof.
  intros Hpc Hrecv. unfold task_step. rewrite Hpc, Hrecv. intros [= <-].
  destruct w as [[id op inc cl] p cs o]. simpl in *.
  unfold cleanup. simpl.
  destruct (GetCarByTCPConn id cs) as [[slot car0]|] eqn:Hfind; simpl.
  - apply list_find_Some in Hfind as (Hslot & Hconn & Hfirst).
    split; [by rewrite length_alter|]. split.
    + intros j car Hj Hother.
      destruct (decide (j = slot)) as [->|Hne]; [congruence|].
      by rewrite list_lookup_alter_ne.
    + intros j car Hj Hchanged.
      destruct (decide (j = slot)) as [->|Hne].
      * assert (car = car0) as -> by congruence.
        split; [done|].
        by rewrite list_lookup_alter_eq, Hslot.
      * by rewrite list_lookup_alter_ne in Hchanged.
  - split; [done|]. split; [done|]. intros j car Hj Hchanged. done.
Qed.

(** On a table that holds a slot of connection 1, a slot of connection 0
    and a free slot, the cleanup of connection 0 leaves the first and the
    last as they were. *)
Lemma cleanup_spares_other_connections_witness :
  ∃ w',
    task_step sample_handlers closing_world_shared = Step w'
    ∧ length (cars w') = 3
    ∧ cars w' !! 0 = Some neighbour_car
    ∧ cars w' !! 2 = Some Car_zero.
Proof.
  exists (cleanup (with_conn (with_closer (Chan.mk 1 0) (conn closing_world_shared))
                     closing_world_shared)).
  split; [reflexivity|].
  destruct (cleanup_spares_other_connections sample_handlers closing_world_shared
              (Chan.mk 1 0)
              (cleanup (with_conn (with_closer (Chan.mk 1 0)
                                     (conn closing_world_shared))
                          closing_world_shared))
              eq_refl eq_refl eq_refl) as (Hlen & Hother & _).
  split; [exact Hlen|]. split.
  - apply (Hother 0 neighbour_car); [reflexivity|discriminate].
  - apply (Hother 2 Car_zero); [reflexivity|discriminate].
Defined.

(** ** Frames of length zero *)

(** A frame whose length prefix is zero reads no payload byte.  The
    message type keeps its zero value, so the frame goes to the handler
    registered for type 0 with an empty payload, or is reported as an
    unknown message of type 0 and length 0; what follows the prefix on the
    stream is left for the next round. *)
Theorem zero_length_frame handlers w rest :
  pc w = AtSelect →
  Chan.try_recv (closer (conn w)) = None →
  binary_Read_uint16 (incoming (conn w)) = LenOk 0 rest →
  match handlers !! 0%N with
  | Some h => dispatched (run handlers 1 w) = dispatched w ++ [(0%N, [])]
  | None =>
      run handlers 1 w
      = emit [EvLog (UnknownMessageType 0%N 0); EvStdout newline]
          (with_conn (with_incoming rest (conn w)) w)
  end
  ∧ incoming (conn (run handlers 1 w)) = rest.
Proof.
  intros Hpc Hrecv Hlen. cbn [run].
  rewrite (task_step_frame _ _ _ _ Hpc Hrecv Hlen).
  unfold handleConnection. change (N.to_nat 0) with O.
  cbn [conn_Read Packet_Read_MessageType].
  destruct (handlers !! 0%N) as [h|] eqn:Hh.
  2:{ split; [|done]. destruct w as [[]]. simpl in *. by subst. }
  cbn [self cars incoming with_incoming with_conn conn].
  set (r := OnMessage h (self (conn w)) [] (cars w)).
  destruct (h_close r).
  - split; [|done]. unfold dispatched. simpl. by rewrite omap_app.
  - destruct (h_err r) as [err|]; simpl.
    + split.
      * rewrite on_error_dispatched. unfold dispatched. simpl.
        rewrite !omap_app. simpl. by rewrite app_nil_r.
      * unfold on_error. by destruct (is_permanent_OpError err).
    + split; [|done]. unfold dispatched. simpl. by rewrite omap_app.
Qed.

Lemma zero_length_frame_witness :
  let w := spawn 0 [RData [x00; x00; x03; x00]] [] in
  run sample_handlers 1 w
  = emit [EvLog (UnknownMessageType 0%N 0); EvStdout newline]
      (with_conn (with_incoming [RData [x03; x00]] (conn w)) w)
  ∧ incoming (conn (run sample_handlers 1 w)) = [RData [x03; x00]].
Proof.
  apply (zero_length_frame sample_handlers
           (spawn 0 [RData [x00; x00; x03; x00]] []) [RData [x03; x00]]);
    reflexivity.
Defined.

(** ** A loop that has returned has closed its transport *)

Lemma on_error_open stage err w :
  pc w ≠ Returned →
  open (conn w) = true →
  (pc (on_error stage err w) = Returned ∧ open (conn (on_error stage err w)) = false)
  ∨ (pc (on_error stage err w) ≠ Returned ∧ open (conn (on_error stage err w)) = true).
Proof.
  intros Hpc Hopen. unfold on_error.
  destruct (is_permanent_OpError err); [by right|by left].
Qed.

Lemma after_handleConnection_open err w :
  pc w ≠ Returned →
  open (conn w) = true →
  (pc (after_handleConnection err w) = Returned
   ∧ open (conn (after_handleConnection err w)) = false)
  ∨ (pc (after_handleConnection err w) ≠ Returned
     ∧ open (conn (after_handleConnection err w)) = true).
Proof.
  intros Hpc Hopen. destruct err as [err|]; simpl.
  - by apply on_error_open.
  - by right.
Qed.

Lemma handler_returned_open declared herr w :
  pc (handler_returned declared herr w).1 = pc w
  ∧ open (conn (handler_returned declared herr w).1) = open (conn w).
Proof. by destruct herr. Qed.

Lemma handleConnection_open handlers n w :
  pc w ≠ Returned →
  match handleConnection handlers n w with
  | Ret w' _ | Suspended w' | Stuck w' =>
      pc w' ≠ Returned ∧ open (conn w') = open (conn w)
  end.
Proof.
  intros Hpc. unfold handleConnection.
  destruct (conn_Read _ _) as [buf rest|err rest|]; [|done..].
  destruct (Packet_Read_MessageType buf) as [mt p].
  destruct (_ !! mt) as [h|]; simpl; [|done].
  destruct (h_close _); simpl; [done|].
  by destruct (h_err _).
Qed.

Lemma task_step_open handlers w w' :
  task_step handlers w = Step w' →
  open (conn w) = true →
  (pc w' = Returned ∧ open (conn w') = false)
  ∨ (pc w' ≠ Returned ∧ open (conn w') = true).
Proof.
  unfold task_step. destruct (pc w) eqn:Hpc; try done.
  - destruct (Chan.try_recv _) as [ch|].
    + intros [= <-] _. left. split; [apply cleanup_pc|].
      unfold cleanup, conn_Close. cbv beta iota zeta.
      by destruct (GetCarByTCPConn _ _) as [[]|].
    + destruct (binary_Read_uint16 _) as [n rest|err rest|].
      * pose proof (handleConnection_open handlers n
                      (with_conn (with_incoming rest (conn w)) w)) as Hhc.
        destruct (handleConnection _ _ _) as [w1 err|w1|w1];
          intros [= <-] Hopen; destruct Hhc as [Hp Ho]; simpl; try congruence.
        -- apply after_handleConnection_open; [done|]. by rewrite Ho.
        -- right. split; [done|]. by rewrite Ho.
        -- right. split; [done|]. by rewrite Ho.
      * intros [= <-] Hopen. apply on_error_open; simpl; congruence.
      * intros [= <-] Hopen. by right.
  - destruct (Chan.send _) as [ch|]; [|done].
    intros [= <-] Hopen. by right.
  - destruct (Chan.send _) as [ch|]; [|done].
    set (w1 := with_conn (with_closer ch (conn w)) w).
    destruct (handler_returned_open declared err w1) as [Hp Ho].
    destruct (handler_returned declared err w1) as [w2 err2]. simpl in Hp, Ho.
    intros [= <-] Hopen.
    apply after_handleConnection_open.
    + rewrite Hp. subst w1. simpl. congruence.
    + by rewrite Ho.
Qed.

(** Under every interleaving, a read loop that has returned has closed
    its transport: whichever way the goroutine returns, through the
    cleanup, after a logged error or both, no return path leaves the
    socket open. *)
Theorem returned_loop_has_closed_transport handlers sched id script cs :
  let w := exec handlers sched (spawn id script cs) in
  pc w = Returned → open (conn w) = false.
Proof.
  intros w.
  assert (Hinv : (pc w = Returned ∧ open (conn w) = false)
                 ∨ (pc w ≠ Returned ∧ open (conn w) = true)).
  { subst w.
    assert (∀ w0,
              (pc w0 = Returned ∧ open (conn w0) = false)
              ∨ (pc w0 ≠ Returned ∧ open (conn w0) = true) →
              (pc (exec handlers sched w0) = Returned
               ∧ open (conn (exec handlers sched w0)) = false)
              ∨ (pc (exec handlers sched w0) ≠ Returned
                 ∧ open (conn (exec handlers sched w0)) = true)) as Hexec.
    { induction sched as [|a sched IH]; intros w0 Hw0; [done|].
      simpl. apply IH. destruct a; simpl.
      - destruct (task_step handlers w0) as [w1| |] eqn:Hstep; [|done..].
        destruct Hw0 as [[Hret _]|[_ Hopen]].
        + unfold task_step in Hstep. by rewrite Hret in Hstep.
        + by apply (task_step_open _ _ _ Hstep).
      - destruct (Chan.send _); by destruct w0 as [[]].
      - by destruct w0. }
    apply Hexec. by right. }
  destruct Hinv as [[? ?]|[? ?]]; congruence.
Qed.

(** A loop that returns on end of file, with no cleanup, has closed its
    socket. *)
Lemma returned_loop_has_closed_transport_witness :
  open (conn (exec sample_handlers [ExternalClose; Owner]
                (spawn 0 [RErr EOF] [occupied_car]))) = false
  ∧ open (conn (exec sample_handlers [Owner] (spawn 0 [RErr EOF] []))) = false.
Proof.
  split.
  - apply (returned_loop_has_closed_transport sample_handlers
             [ExternalClose; Owner] 0 [RErr EOF] [occupied_car]).
    reflexivity.
  - apply (returned_loop_has_closed_transport sample_handlers
             [Owner] 0 [RErr EOF] []).
    reflexivity.
Defined.

(** ** Connections that can no longer be closed *)

(** Only the [select] of the read loop takes a token from [closer].  Once
    the buffer is full while the loop waits at a send of its own (after a
    permanent read error, or inside a handler that closes the connection)
    or has returned, nothing changes any more, whatever is scheduled: the
    loop stays where it is, no cleanup runs, the socket keeps its state,
    and every further [closeTCPConnection] blocks its caller. *)
Theorem full_closer_wedges_connection handlers w sched :
  pc w ≠ AtSelect →
  pc w ≠ InRead →
  Chan.send (closer (conn w)) = None →
  let w' := exec handlers sched w in
  pc w' = pc w
  ∧ conn w' = conn w
  ∧ out w' = out w
  ∧ closeTCPConnection (IsTcpConn (conn w')) = None.
Proof.
  intros Hpc _ Hfull.
  destruct (full_closer_stays handlers sched w Hpc Hfull) as (Hp & Hc & Ho).
  simpl. repeat split; try done.
  unfold closeTCPConnection. by rewrite Hc, Hfull.
Qed.

(** The state is reached when an outside close lands between a permanent
    read error and the loop's own send of the close signal. *)
Lemma full_closer_wedges_connection_witness :
  let w := exec sample_handlers [Owner; ExternalClose]
             (spawn 0 [RErr (OpError false)] [occupied_car]) in
  let w' := exec sample_handlers [Owner; ExternalClose; Owner; Owner] w in
  pc w' = AtSendCloser
  ∧ conn w' = conn w
  ∧ out w' = []
  ∧ closeTCPConnection (IsTcpConn (conn w')) = None.
Proof.
  apply (full_closer_wedges_connection sample_handlers
           (exec sample_handlers [Owner; ExternalClose]
              (spawn 0 [RErr (OpError false)] [occupied_car]))
           [Owner; ExternalClose; Owner; Owner]).
  - vm_compute. discriminate.
  - vm_compute. discriminate.
  - reflexivity.
Defined.

Lemma InRead_stays handlers sched : ∀ w,
  pc w = InRead →
  pc (exec handlers sched w) = InRead
  ∧ out (exec handlers sched w) = out w
  ∧ open (conn (exec handlers sched w)) = open (conn w).
Proof.
  induction sched as [|a sched IH]; intros w Hpc; [done|].
  simpl. destruct a; simpl.
  - unfold task_step. rewrite Hpc. by apply IH.
  - destruct (Chan.send _) as [ch|]; [|by apply IH].
    destruct (IH (with_conn (with_closer ch (conn w)) w) Hpc) as (? & ? & ?).
    done.
  - destruct (IH (with_cars cs w) Hpc) as (? & ? & ?). done.
Qed.

(** The close signal is looked at between frames only.  A peer that stays
    silent, or that sends a length prefix and withholds the payload, keeps
    the loop inside its read: however many times [closeTCPConnection] is
    called afterwards, no cleanup runs and the socket stays open. *)
Theorem silent_peer_is_not_closed handlers id cs b0 b1 sched :
  le_uint16 b0 b1 ≠ 0%N →
  ∀ script, script = [] ∨ script = [RData [b0; b1]] →
  let w := exec handlers (Owner :: sched) (spawn id script cs) in
  pc w = InRead ∧ cleanups w = 0 ∧ open (conn w) = true.
Proof.
  intros Hlen script Hscript w. subst w. cbn [exec foldl].
  assert (Hfirst : pc (act handlers Owner (spawn id script cs)) = InRead
                   ∧ out (act handlers Owner (spawn id script cs)) = []
                   ∧ open (conn (act handlers Owner (spawn id script cs))) = true).
  { destruct Hscript as [->| ->]; [done|].
    simpl. unfold task_step. simpl. unfold binary_Read_uint16. simpl.
    unfold handleConnection. simpl.
    destruct (N.to_nat (le_uint16 b0 b1)) as [|k] eqn:Hk; [lia|]. by simpl. }
  fold (exec handlers sched (act handlers Owner (spawn id script cs))).
  destruct Hfirst as (Hp1 & Ho1 & Hopen1).
  destruct (InRead_stays handlers sched _ Hp1) as (Hp & Ho & Hopen).
  split; [done|]. split; [|congruence].
  unfold cleanups. by rewrite Ho, Ho1.
Qed.

Lemma silent_peer_is_not_closed_witness :
  let w := exec sample_handlers [Owner; ExternalClose; Owner; ExternalClose]
             (spawn 0 [RData [x0a; x00]] [occupied_car]) in
  pc w = InRead ∧ cleanups w = 0 ∧ open (conn w) = true.
Proof.
  apply (silent_peer_is_not_closed sample_handlers 0 [occupied_car] x0a x00
           [ExternalClose; Owner; ExternalClose]).
  - vm_compute. discriminate.
  - by right.
Defined.

(** ** Closing the listener more than once *)

(** [Close] is not idempotent.  A second [Close] before the accept loop has
    woken up blocks on [closed].  Once the accept loop has taken the token
    and returned, another [Close] gets the error of closing a closed
    listener and leaves a token that nobody takes, so that the call after
    it blocks. *)
Theorem Close_twice t :
  listener t = true →
  closed t = Chan.make 1 →
  accept_loop t = Accepting →
  ∃ t1,
    Close t = Some (t1, None)
    ∧ Close t1 = None
    ∧ ∀ env,
        accept_loop (accept_step env t1) = AcceptReturned
        ∧ ∃ t3,
            Close (accept_step env t1) = Some (t3, Some (OpError false))
            ∧ (∀ env', accept_step env' t3 = t3)
            ∧ Close t3 = None.
Proof.
  intros Hlis Hclosed Hacc. unfold Close at 1. rewrite Hclosed, Hlis. simpl.
  eexists. split; [reflexivity|]. split; [done|].
  intros env. unfold accept_step. simpl. rewrite Hacc. simpl.
  split; [done|]. unfold Close. simpl.
  eexists. split; [reflexivity|]. split; [|done].
  intros env'. done.
Qed.

Lemma Close_twice_witness :
  ∃ t1,
    Close busy_server = Some (t1, None)
    ∧ Close t1 = None
    ∧ ∀ env,
        accept_loop (accept_step env t1) = AcceptReturned
        ∧ ∃ t3,
            Close (accept_step env t1) = Some (t3, Some (OpError false))
            ∧ (∀ env', accept_step env' t3 = t3)
            ∧ Close t3 = None.
Proof. apply (Close_twice busy_server); reflexivity. Defined.

(** ** From accept to the first frame *)

(** An accepted connection is served whether or not its socket options
    could be set: each failing option costs one log line, the connection
    joins the server with an empty [closer], and its read loop takes the
    same first step as a freshly spawned loop on the same stream and car
    table.  The connections accepted before are not touched. *)
Theorem accepted_connection_is_served t script keepalive period nodelay :
  listener t = true →
  accept_loop t = Accepting →
  let t1 := accept_step (Accepted script keepalive period nodelay) t in
  let n := length (conns t) in
  let w := spawn (next_conn t) script (state t) in
  accept_loop t1 = Accepting
  ∧ conns t1 = conns t ++ [(conn w, AtSelect)]
  ∧ logger t1 = logger t ++ log_if CouldNotSetKeepAlive keepalive
                  ++ log_if CouldNotSetKeepAlivePeriod period
                  ++ log_if CouldNotSetNoDelay nodelay
  ∧ match task_step (messageHandlers t) w with
    | Step w' =>
        conns (conn_step n t1) = conns t ++ [(conn w', pc w')]
        ∧ state (conn_step n t1) = cars w'
        ∧ logger (conn_step n t1) = logger t1 ++ out w'
    | Blocked | Halted => conn_step n t1 = t1
    end.
Proof.
  intros Hlis Hacc t1 n w.
  assert (Ht1 : t1 = {| port := port t; messageHandlers := messageHandlers t;
                        listener := listener t; closed := closed t;
                        accept_loop := Accepting;
                        conns := conns t ++ [(conn w, AtSelect)];
                        next_conn := S (next_conn t); state := state t;
                        logger := logger t ++ log_if CouldNotSetKeepAlive keepalive
                                    ++ log_if CouldNotSetKeepAlivePeriod period
                                    ++ log_if CouldNotSetNoDelay nodelay |}).
  { subst t1. unfold accept_step, AcceptTCP. by rewrite Hacc, Hlis. }
  rewrite Ht1. cbn [accept_loop conns logger]. repeat split.
  unfold conn_step. cbn [conns messageHandlers state logger].
  subst n. rewrite lookup_app_r, Nat.sub_diag by lia. cbn [lookup list_lookup].
  set (lg := logger t ++ _ ++ _ ++ _).
  replace {| conn := conn w; pc := AtSelect; cars := state t; out := lg |}
    with (relog lg w)
    by (unfold relog, w; simpl; by rewrite app_nil_r).
  rewrite task_step_relog.
  destruct (task_step (messageHandlers t) w) as [w'| |]; simpl; [|done..].
  split; [|done].
  rewrite insert_app_r_alt, Nat.sub_diag by lia. done.
Qed.

Lemma accepted_connection_is_served_witness :
  let t1 := accept_step
              (Accepted [RData (frame (x07, [x01]))] (Some (OpError false)) None None)
              busy_server in
  accept_loop t1 = Accepting
  ∧ length (conns t1) = 3
  ∧ logger t1 = [EvLog (CouldNotSetKeepAlive (OpError false))]
  ∧ logger (conn_step 2 t1)
    = [EvLog (CouldNotSetKeepAlive (OpError false)); EvDispatch 2 7%N [x01]].
Proof.
  destruct (accepted_connection_is_served busy_server
              [RData (frame (x07, [x01]))] (Some (OpError false)) None None
              eq_refl eq_refl) as (Hacc & Hconns & Hlog & Hstep).
  split; [exact Hacc|]. split; [by rewrite Hconns|].
  split; [exact Hlog|]. reflexivity.
Defined.

(** ** The read loop comes to rest *)

Lemma script_weight_push_back bs s :
  script_weight (push_back bs s) ≤ S (length bs) + script_weight s.
Proof. destruct bs; simpl; lia. Qed.

Lemma io_ReadFull_weight need : ∀ s got,
  match io_ReadFull need got s with
  | ROk _ rest => script_weight rest + need ≤ script_weight s
  | RFail _ rest => script_weight rest + 1 ≤ script_weight s
  | RBlock => True
  end.
Proof.
  destruct need as [|need]; [intros [|e s] got; simpl; lia|].
  intros s. revert need. induction s as [|e s IH]; intros need got; [done|].
  destruct e as [bs|err].
  - cbn [io_ReadFull]. case_decide as Hle.
    + pose proof (script_weight_push_back (drop (S need) bs) s) as Hpb.
      rewrite length_drop in Hpb. cbn [script_weight]. lia.
    + destruct (S need - length bs) as [|k] eqn:Hk; [lia|].
      specialize (IH k (got ++ bs)).
      destruct (io_ReadFull (S k) (got ++ bs) s); cbn [script_weight]; lia.
  - cbn [io_ReadFull].
    destruct got, err; cbn [script_weight]; lia.
Qed.

Lemma binary_Read_uint16_weight s :
  match binary_Read_uint16 s with
  | LenOk _ rest => script_weight rest + 2 ≤ script_weight s
  | LenFail _ rest => script_weight rest + 1 ≤ script_weight s
  | LenBlock => True
  end.
Proof.
  unfold binary_Read_uint16.
  pose proof (io_ReadFull_weight 2 s []) as Hw.
  destruct (io_ReadFull 2 [] s) as [bs rest|err rest|]; [|done..].
  destruct bs as [|b0 [|b1 [|b2 bs]]]; lia.
Qed.

Lemma conn_Read_weight size s :
  match conn_Read size s with
  | ROk _ rest => script_weight rest ≤ script_weight s
  | RFail _ rest => script_weight rest + 1 ≤ script_weight s
  | RBlock => True
  end.
Proof.
  destruct size as [|size]; [simpl; lia|].
  destruct s as [|[bs|err] s]; [done| |].
  - cbn [conn_Read].
    pose proof (script_weight_push_back (drop (S size) bs) s) as Hpb.
    rewrite length_drop in Hpb. cbn [script_weight]. lia.
  - cbn [conn_Read script_weight]. lia.
Qed.

Lemma on_error_measure stage err w :
  loop_measure (on_error stage err w)
  ≤ 4 * script_weight (incoming (conn w)) + 2.
Proof.
  unfold on_error, loop_measure.
  destruct (is_permanent_OpError err); simpl; lia.
Qed.

Lemma after_handleConnection_measure err w :
  loop_measure (after_handleConnection err w)
  ≤ 4 * script_weight (incoming (conn w)) + 2.
Proof.
  destruct err as [err|]; simpl; [apply on_error_measure|].
  unfold loop_measure. simpl. lia.
Qed.

Lemma handleConnection_measure handlers n w :
  match handleConnection handlers n w with
  | Ret w' err =>
      loop_measure (after_handleConnection err w')
      ≤ 4 * script_weight (incoming (conn w)) + 2
  | Suspended w' | Stuck w' =>
      loop_measure w' ≤ 4 * script_weight (incoming (conn w)) + 3
  end.
Proof.
  unfold handleConnection.
  pose proof (conn_Read_weight (N.to_nat n) (incoming (conn w))) as Hw.
  destruct (conn_Read _ _) as [buf rest|err rest|].
  - destruct (Packet_Read_MessageType buf) as [mt p].
    destruct (_ !! mt) as [h|]; simpl.
    + destruct (h_close _); simpl.
      * unfold loop_measure. simpl. lia.
      * destruct (h_err _) as [err|]; simpl.
        -- etrans; [apply on_error_measure|]. simpl. lia.
        -- unfold loop_measure. simpl. lia.
    + unfold loop_measure. simpl. lia.
  - etrans; [apply after_handleConnection_measure|]. simpl. lia.
  - unfold loop_measure. simpl. lia.
Qed.

(** Every step of the read loop uses up some of the script or moves on
    within its round. *)
Lemma task_step_measure handlers w w' :
  task_step handlers w = Step w' → loop_measure w' < loop_measure w.
Proof.
  unfold task_step. destruct (pc w) eqn:Hpc; try done.
  - destruct (Chan.try_recv _) as [ch|].
    + intros [= <-]. unfold loop_measure. rewrite cleanup_pc, Hpc.
      unfold cleanup, conn_Close. cbv beta iota zeta.
      destruct (GetCarByTCPConn _ _) as [[]|]; simpl; lia.
    + pose proof (binary_Read_uint16_weight (incoming (conn w))) as Hlen.
      destruct (binary_Read_uint16 _) as [n rest|err rest|].
      * pose proof (handleConnection_measure handlers n
                      (with_conn (with_incoming rest (conn w)) w)) as Hhc.
        simpl in Hhc.
        destruct (handleConnection _ _ _) as [w1 err|w1|w1];
          intros [= <-]; unfold loop_measure at 2; rewrite Hpc; simpl; lia.
      * intros [= <-].
        pose proof (on_error_measure ReadLength err
                      (with_conn (with_incoming rest (conn w)) w)) as He.
        simpl in He. unfold loop_measure at 2. rewrite Hpc. simpl. lia.
      * intros [= <-]. unfold loop_measure. rewrite Hpc. simpl. lia.
  - destruct (Chan.send _) as [ch|]; [|done].
    intros [= <-]. unfold loop_measure. rewrite Hpc. simpl. lia.
  - destruct (Chan.send _) as [ch|]; [|done].
    set (w1 := with_conn (with_closer ch (conn w)) w).
    assert (Hin : incoming (conn (handler_returned declared err w1).1)
                  = incoming (conn w)) by (by destruct err).
    destruct (handler_returned declared err w1) as [w2 err2]. simpl in Hin.
    intros [= <-].
    pose proof (after_handleConnection_measure err2 w2) as Ha.
    rewrite Hin in Ha. unfold loop_measure at 2. rewrite Hpc. simpl. lia.
Qed.

Lemma run_at_rest handlers n : ∀ w,
  loop_measure w ≤ n → at_rest handlers (run handlers n w).
Proof.
  induction n as [|n IH]; intros w Hn.
  - simpl. unfold at_rest.
    destruct (task_step handlers w) as [w'| |] eqn:Hstep; [|done..].
    apply task_step_measure in Hstep. lia.
  - simpl. destruct (task_step handlers w) as [w'| |] eqn:Hstep.
    + apply IH. apply task_step_measure in Hstep. lia.
    + unfold at_rest. by rewrite Hstep.
    + unfold at_rest. by rewrite Hstep.
Qed.

(** Left to itself on a script of [k] read events and [b] bytes, the read
    loop comes to rest within [4 * (k + b) + 1] steps: it has returned, or
    it waits in a read or at a send.  In particular no stream, however
    malformed, makes the loop of a fresh connection spin. *)
Theorem read_loop_comes_to_rest handlers id script cs :
  let n := 4 * script_weight script + 1 in
  at_rest handlers (run handlers n (spawn id script cs))
  ∧ ∀ m, n ≤ m →
      run handlers m (spawn id script cs) = run handlers n (spawn id script cs).
Proof.
  intros n.
  assert (Hrest : at_rest handlers (run handlers n (spawn id script cs))).
  { apply run_at_rest. unfold loop_measure. simpl. lia. }
  split; [done|]. intros m Hm.
  replace m with (n + (m - n)) by lia.
  generalize (m - n) as k. intros k.
  assert (Hadd : ∀ a b w, run handlers (a + b) w = run handlers b (run handlers a w)).
  { induction a as [|a IHa]; intros b w; [done|]. simpl.
    destruct (task_step handlers w) as [w'| |] eqn:Hstep; [apply IHa| |].
    - destruct b; [done|]. simpl. by rewrite Hstep.
    - destruct b; [done|]. simpl. by rewrite Hstep. }
  rewrite Hadd. unfold at_rest in Hrest.
  destruct k; [done|]. simpl.
  by destruct (task_step handlers (run handlers n (spawn id script cs))).
Qed.

Lemma read_loop_comes_to_rest_witness :
  let script := [RData (frame (x07, [x01])); RErr (OpError false)] in
  let n := 4 * script_weight script + 1 in
  at_rest sample_handlers (run sample_handlers n (spawn 0 script []))
  ∧ run sample_handlers (n + 5) (spawn 0 script [])
    = run sample_handlers n (spawn 0 script []).
Proof.
  intros script n.
  destruct (read_loop_comes_to_rest sample_handlers 0 script []) as [Hrest Hsame].
  split; [exact Hrest|]. apply Hsame. lia.
Defined.

(** ** A handler that closes its own connection *)

(** When a handler calls [closeTCPConnection] on the connection it is
    serving and returns without an error, the loop honours the signal at
    its very next [select]: the cleanup runs and the goroutine returns
    before another frame is read, so that frames which had already arrived
    behind the closing message are never dispatched. *)
Theorem handler_close_precedes_next_frame handlers w messageLength mid buf rest h :
  pc w = AtSelect →
  closer (conn w) = Chan.make 1 →
  binary_Read_uint16 (incoming (conn w)) = LenOk messageLength mid →
  conn_Read (N.to_nat messageLength) mid = ROk buf rest →
  handlers !! (Packet_Read_MessageType buf).1 = Some h →
  let r := OnMessage h (self (conn w)) (Packet_Read_MessageType buf).2 (cars w) in
  h_close r = true →
  h_err r = None →
  let w' := run handlers 3 w in
  pc w' = Returned
  ∧ open (conn w') = false
  ∧ cleanups w' = S (cleanups w)
  ∧ dispatched w' = dispatched w ++ [Packet_Read_MessageType buf]
  ∧ incoming (conn w') = rest
  ∧ ∀ fuel, run handlers fuel w' = w'.
Proof.
  intros Hpc Hcl Hlen Hread Hh r Hclose Herr. subst r.
  destruct w as [[id op inc cl] p cs o]. simpl in Hpc, Hcl, Hlen. subst p cl.
  destruct (Packet_Read_MessageType buf) as [mt payload] eqn:Hmt.
  simpl in Hh, Hclose, Herr. cbn [fst snd].
  set (r := OnMessage h id payload cs) in *.
  set (w := {| conn := {| self := id; open := op; incoming := inc;
                          closer := Chan.make 1 |};
               pc := AtSelect; cars := cs; out := o |}).
  set (w1 := emit [EvDispatch id mt payload]
               (with_cars (h_cars r)
                  (with_conn (with_incoming rest (conn w)) w))).
  assert (Hhc : handleConnection handlers messageLength
                  (with_conn (with_incoming mid (conn w)) w)
                = Suspended (goto (InHandler (handler_MessageType h) None) w1)).
  { unfold handleConnection. simpl. rewrite Hread, Hmt, Hh. fold r.
    by rewrite Hclose, Herr. }
  assert (Hstep := task_step_frame handlers w messageLength mid eq_refl eq_refl Hlen).
  rewrite Hhc in Hstep.
  assert (H3 : run handlers 3 w
               = cleanup (goto AtSelect w1)).
  { cbn [run]. rewrite Hstep. reflexivity. }
  cbv zeta. rewrite H3.
  split; [apply cleanup_pc|]. split.
  { unfold cleanup, conn_Close. cbv beta iota zeta.
    by destruct (GetCarByTCPConn _ _) as [[]|]. }
  split.
  { rewrite cleanups_cleanup. f_equal. unfold cleanups. simpl.
    rewrite filter_app, length_app. simpl. lia. }
  split.
  { rewrite dispatched_cleanup. unfold dispatched. simpl. by rewrite omap_app. }
  split.
  { unfold cleanup, conn_Close. cbv beta iota zeta.
    by destruct (GetCarByTCPConn _ _) as [[]|]. }
  intros fuel. apply run_Returned, cleanup_pc.
Qed.

Lemma handler_close_precedes_next_frame_witness :
  let w := spawn 0 [RData (frame (x09, [x01]) ++ frame (x07, [x02]))]
             [occupied_car] in
  let w' := run sample_handlers 3 w in
  pc w' = Returned
  ∧ open (conn w') = false
  ∧ cleanups w' = S (cleanups w)
  ∧ dispatched w' = dispatched w ++ [(9%N, [x01])]
  ∧ incoming (conn w') = [RData (frame (x07, [x02]))]
  ∧ ∀ fuel, run sample_handlers fuel w' = w'.
Proof.
  apply (handler_close_precedes_next_frame sample_handlers
           (spawn 0 [RData (frame (x09, [x01]) ++ frame (x07, [x02]))]
              [occupied_car])
           2%N [RData ([x09; x01] ++ frame (x07, [x02]))] [x09; x01]
           [RData (frame (x07, [x02]))] (const_handler 9%N true None));
    reflexivity.
Defined.

(** * Further properties of the Resolver *)

Module ResolverMore.
Import Resolver ResolverFacts.

(** ** The step bound does not matter *)

Lemma extends_refl {A : Type} (c : M A) : extends c c.
Proof. by intros r x. Qed.

Lemma extends_bind {A B : Type} (c c' : M A) (k k' : A → M B) :
  extends c c' → (∀ a, extends (k a) (k' a)) → extends (c ≫= k) (c' ≫= k').
Proof.
  intros Hc Hk r [b r'] Hrun.
  apply bind_Some in Hrun as (a & r1 & H1 & H2).
  unfold mbind, M_bind. rewrite (Hc _ _ H1). by apply Hk.
Qed.

Lemma extends_memo guard target build build' :
  extends build build' → extends (memo guard target build) (memo guard target build').
Proof.
  intros Hb. unfold memo. apply extends_bind; [apply extends_refl|].
  intros [p|]; [apply extends_refl|].
  apply extends_bind; [done|]. intros _. apply extends_refl.
Qed.

Ltac extends IH :=
  repeat first
    [ apply extends_memo
    | apply IH
    | apply extends_refl
    | apply extends_bind; [|intros ?] ].

Lemma resolve_extends perf n : ∀ m,
  extends (resolve perf n m) (resolve perf (S n) m).
Proof.
  induction n as [|n IH]; intros m; [by intros r x|].
  destruct m; cbn [resolve]; try (extends IH).
  destruct perf; extends IH.
Qed.

(** ** Every resolve method returns *)

Lemma total_bind {A B : Type} P Q R (c : M A) (k : A → M B) :
  total P c Q → (∀ a, total Q (k a) R) → total P (c ≫= k) R.
Proof.
  intros Hc Hk r HP. destruct (Hc r HP) as (a & r1 & H1 & HQ).
  destruct (Hk a r1 HQ) as (b & r2 & H2 & HR).
  exists b, r2. split; [|done]. unfold mbind, M_bind. by rewrite H1.
Qed.

Lemma total_weaken {A : Type} (P P' Q Q' : (field → option ptr) → Prop) (c : M A) :
  (∀ fs, P' fs → P fs) → (∀ fs, Q fs → Q' fs) → total P c Q → total P' c Q'.
Proof.
  intros HP HQ Hc r Hr. destruct (Hc r (HP _ Hr)) as (a & r' & ? & ?). eauto.
Qed.

Lemma total_ret {A : Type} P (a : A) : total P (mret a) P.
Proof. intros r HP. by exists a, r. Qed.

Lemma total_get P f : total P (get f) P.
Proof. intros r HP. by eexists _, r. Qed.

Lemma total_New P what args : total P (New what args) P.
Proof. intros r HP. by eexists _, _. Qed.

Lemma total_SetPlugin P sp plugin : total P (SetPlugin sp plugin) P.
Proof. intros r HP. by eexists _, _. Qed.

Lemma total_go_run P hub : total P (go_run hub) P.
Proof. intros r HP. by eexists _, _. Qed.

Lemma total_set_any f p : total any_fields (set f p) any_fields.
Proof. intros r HP. by eexists _, _. Qed.

Lemma total_set_sp f p : total sp_set (set f p) sp_set.
Proof.
  intros r HP. eexists _, _. split; [reflexivity|]. simpl. unfold sp_set.
  destruct (decide (f = serverProcess)) as [->|Hne].
  - rewrite fn_lookup_insert. eauto.
  - by rewrite fn_lookup_insert_ne.
Qed.

Lemma total_set_serverProcess P p : total P (set serverProcess p) sp_set.
Proof.
  intros r HP. eexists _, _. split; [reflexivity|]. simpl. unfold sp_set.
  rewrite fn_lookup_insert. eauto.
Qed.

Lemma total_memo P guard target build :
  total P build P → total P (memo guard target build) P.
Proof.
  intros Hb. unfold memo. eapply total_bind; [apply total_get|].
  intros [p|]; [apply total_get|].
  eapply total_bind; [exact Hb|]. intros _. apply total_get.
Qed.

Ltac total_any IH :=
  repeat first
    [ apply total_memo
    | apply total_get
    | apply total_New
    | apply total_set_any
    | apply total_go_run
    | apply total_ret
    | apply IH; simpl in *; lia
    | eapply total_bind; [|intros ?] ].

Ltac total_sp IH :=
  repeat first
    [ apply total_memo
    | apply total_get
    | apply total_New
    | apply total_set_sp
    | apply total_go_run
    | apply total_ret
    | apply IH; simpl in *; lia
    | eapply total_bind; [|intros ?] ].

(** On a resolver whose server process is built the calls go no deeper
    than [level]. *)
Lemma resolve_total_sp perf n : ∀ m,
  level m ≤ n → total sp_set (resolve perf n m) sp_set.
Proof.
  induction n as [|n IH]; intros m Hm; [destruct m; cbn in Hm; lia|].
  destruct m; cbn [resolve]; try solve [total_sp IH].
  - intros r [p Hp]. exists (Some p), r. split; [|unfold sp_set; eauto].
    unfold memo, mbind, M_bind, get. simpl. rewrite Hp. simpl. by rewrite Hp.
  - destruct perf; total_sp IH.
Qed.

(** On any resolver the calls go no deeper than [depth]: the server
    process is built at most once, and what it then calls finds it built. *)
Lemma resolve_total_any perf n : ∀ m,
  depth m ≤ n → total any_fields (resolve perf n m) any_fields.
Proof.
  induction n as [|n IH]; intros m Hm; [destruct m; cbn in Hm; lia|].
  destruct m; cbn [resolve]; try solve [total_any IH].
  - apply total_memo.
    eapply total_bind; [apply IH; simpl in *; lia|]. intros a1.
    eapply total_bind; [apply IH; simpl in *; lia|]. intros a2.
    eapply total_bind; [apply total_New|]. intros p.
    eapply total_bind; [apply total_set_serverProcess|]. intros _.
    eapply total_bind; [apply total_get|]. intros sp.
    eapply total_bind; [apply resolve_total_sp; simpl in *; lia|]. intros plugin.
    eapply total_weaken; [| |apply (total_SetPlugin sp_set)]; done.
  - destruct perf; total_any IH.
Qed.

Lemma resolve_extends_add perf k n m r x :
  resolve perf n m r = Some x → resolve perf (k + n) m r = Some x.
Proof.
  intros Hrun. induction k as [|k IH]; [done|].
  simpl. by apply resolve_extends.
Qed.

Lemma resolve_runs perf m r :
  ∃ v r',
    ∀ n, enough_steps ≤ n → resolve perf n m r = Some (v, r').
Proof.
  destruct (resolve_total_any perf enough_steps m) with (r := r)
    as (v & r' & Hrun & _); [by destruct m; vm_compute; lia|done|].
  exists v, r'. intros n Hn.
  replace n with ((n - enough_steps) + enough_steps) by lia.
  by apply resolve_extends_add.
Qed.

(** Resolution always returns, the cycle between the race manager, the
    server process and the UDP plugin adapter notwithstanding: every
    resolve method, on every resolver, runs to its end within
    [enough_steps] nested calls, and the bound on the steps has no part in
    the result: whenever a run is not cut off it gives this same result. *)
Theorem resolve_returns perf m r :
  ∃ v r',
    (∀ n, enough_steps ≤ n → resolve perf n m r = Some (v, r'))
    ∧ (∀ n x, resolve perf n m r = Some x → x = (v, r')).
Proof.
  destruct (resolve_runs perf m r) as (v & r' & Hall).
  exists v, r'. split; [exact Hall|].
  intros n x Hrun.
  apply (resolve_extends_add perf enough_steps) in Hrun.
  rewrite (Hall (enough_steps + n)) in Hrun by lia.
  by injection Hrun as <-.
Qed.

Lemma resolve_returns_witness :
  ∃ v r', resolve false 14 resolveRaceManager (literal false) = Some (v, r').
Proof.
  destruct (resolve_returns false resolveRaceManager (literal false))
    as (v & r' & Hall & _).
  exists v, r'. apply Hall. unfold enough_steps. lia.
Defined.

(** ** What is resolved stays *)

Lemma leaves_bind f {A B : Type} (c : M A) (k : A → M B) :
  leaves_set f c → (∀ a, leaves_set f (k a)) → leaves_set f (c ≫= k).
Proof.
  intros Hc Hk r b r' Hrun Hf.
  apply bind_Some in Hrun as (a & r1 & H1 & H2).
  rewrite <- (Hc _ _ _ H1 Hf). eapply Hk; [exact H2|].
  by rewrite (Hc _ _ _ H1 Hf).
Qed.

Lemma leaves_ret f {A : Type} (a : A) : leaves_set f (mret a : M A).
Proof. by intros r a' r' [= _ <-]. Qed.

Lemma leaves_get f g : leaves_set f (get g).
Proof. by intros r a r' [= _ <-]. Qed.

Lemma leaves_New f what args : leaves_set f (New what args).
Proof. by intros r a r' [= _ <-]. Qed.

Lemma leaves_SetPlugin f sp plugin : leaves_set f (SetPlugin sp plugin).
Proof. by intros r a r' [= _ <-]. Qed.

Lemma leaves_go_run f hub : leaves_set f (go_run hub).
Proof. by intros r a r' [= _ <-]. Qed.

Lemma leaves_set_other f g p : g ≠ f → leaves_set f (set g p).
Proof. intros Hne r a r' [= _ <-] _. simpl. by rewrite fn_lookup_insert_ne. Qed.

Lemma leaves_out_of_steps f {A : Type} : leaves_set f (out_of_steps : M A).
Proof. by intros r a r'. Qed.

(** A guarded body never runs when the field it fills is set and is its
    own guard; a body that fills another field has to leave [f] alone. *)
Lemma leaves_memo f guard target build :
  (target = f → guard = f) →
  (target ≠ f → leaves_set f build) →
  leaves_set f (memo guard target build).
Proof.
  intros Hguard Hbuild. unfold memo.
  destruct (decide (target = f)) as [Heq|Hne].
  - rewrite (Hguard Heq). subst target.
    intros r a r' Hrun [p Hp]. unfold mbind, M_bind, get in Hrun.
    simpl in Hrun. rewrite Hp in Hrun. by injection Hrun as _ <-.
  - apply leaves_bind; [apply leaves_get|].
    intros [p|]; [apply leaves_get|].
    apply leaves_bind; [by apply Hbuild|]. intros _. apply leaves_get.
Qed.

Ltac leaves IH :=
  apply leaves_memo; [congruence|intros ?];
  repeat first
    [ apply leaves_get
    | apply leaves_New
    | apply leaves_SetPlugin
    | apply leaves_go_run
    | apply leaves_ret
    | apply leaves_set_other; congruence
    | apply IH
    | apply leaves_bind; [|intros ?] ].

Lemma resolve_leaves_set perf f n : ∀ m,
  f ≠ penaltiesManager → leaves_set f (resolve perf n m).
Proof.
  induction n as [|n IH]; intros m Hf; [apply leaves_out_of_steps|].
  specialize (λ m, IH m Hf).
  destruct m; cbn [resolve]; try solve [leaves IH].
  - apply leaves_get.
  - destruct perf; [apply leaves_ret|leaves IH].
Qed.

(** A field that holds an instance when a resolve method is called holds
    that very instance when the call returns, whichever method is called
    and whatever it resolves on the way.  The one field for which this is
    not claimed is [penaltiesManager], whose method guards on another
    field. *)
Theorem resolved_component_is_kept perf n m r v r' f :
  f ≠ penaltiesManager →
  is_Some (fields r f) →
  resolve perf n m r = Some (v, r') →
  fields r' f = fields r f.
Proof.
  intros Hf Hset Hrun. by eapply (resolve_leaves_set perf f n m Hf).
Qed.

(** The track manager resolved first is the one the resolver still holds
    after the race manager, which takes it as an argument, has been
    resolved. *)
Lemma resolved_component_is_kept_witness :
  ∃ r v' r',
    resolve false 14 resolveTrackManager (literal false) = Some (Some 2, r)
    ∧ resolve false 14 resolveRaceManager r = Some (v', r')
    ∧ fields r' trackManager = Some 2.
Proof.
  destruct (resolve false 14 resolveTrackManager (literal false))
    as [[v r]|] eqn:Hfirst; [|vm_compute in Hfirst; discriminate].
  assert (Hv : v = Some 2 ∧ fields r trackManager = Some 2).
  { vm_compute in Hfirst. injection Hfirst as <- <-.
    split; vm_compute; reflexivity. }
  destruct Hv as [-> Htm].
  destruct (resolve_runs false resolveRaceManager r) as (v' & r' & Hall).
  assert (Hrun : resolve false 14 resolveRaceManager r = Some (v', r')).
  { apply Hall. unfold enough_steps. lia. }
  exists r, v', r'. split; [reflexivity|]. split; [exact Hrun|].
  rewrite <- Htm.
  apply (resolved_component_is_kept false 14 resolveRaceManager r v' r'
           trackManager); [done|by rewrite Htm|exact Hrun].
Defined.

(** A field that is [nil] when a call starts is another matter.  On a
    resolver that holds no server process yet, resolving the race manager
    resolves, among its arguments, components that resolve the race
    manager themselves: the inner call stores one instance, and the outer
    call constructs a second and stores that one. *)
Example raceManager_assigned_twice_in_one_call :
  (λ '(v, r), (v, fields r raceManager, at_ptr <$> built_as raceManager r))
    <$> resolve false 14 resolveRaceManager (literal false)
  = Some (Some 16, Some 16, [12; 16]).
Proof. by vm_compute. Qed.

(** ** Idempotence of the sibling methods *)

(** Every resolve method other than [resolvePenaltiesManager] is
    idempotent on every resolver: the call returns, and a second call
    right after it returns the same instance and changes nothing, so that
    nothing is constructed twice. *)
Theorem sibling_methods_are_idempotent perf m r :
  m ≠ resolvePenaltiesManager →
  ∃ v r',
    ∀ n, enough_steps ≤ n →
      resolve perf n m r = Some (v, r')
      ∧ resolve perf n m r' = Some (v, r').
Proof.
  intros Hm. destruct (resolve_runs perf m r) as (v & r' & Hall).
  exists v, r'. intros n Hn. split; [by apply Hall|].
  destruct n as [|n]; [unfold enough_steps in Hn; lia|].
  apply (resolve_idempotent perf m enough_steps n r v r' Hm).
  by apply Hall.
Qed.

(** The race manager, resolved on a resolver that holds nothing yet: the
    second call returns the instance of the first and leaves the resolver
    as it was. *)
Lemma sibling_methods_are_idempotent_witness :
  ∃ r',
    resolve false 14 resolveRaceManager (literal false) = Some (Some 16, r')
    ∧ resolve false 14 resolveRaceManager r' = Some (Some 16, r')
    ∧ fields r' raceManager = Some 16.
Proof.
  destruct (sibling_methods_are_idempotent false resolveRaceManager
              (literal false)) as (v & r' & Hall); [discriminate|].
  destruct (Hall 14) as [Hfirst Hsecond]; [unfold enough_steps; lia|].
  assert (Hv : v = Some 16 ∧ fields r' raceManager = Some 16).
  { pose proof Hfirst as E. vm_compute in E. injection E as <- <-.
    split; vm_compute; reflexivity. }
  destruct Hv as [-> Hrm].
  exists r'. split; [exact Hfirst|]. split; [exact Hsecond|exact Hrm].
Defined.

(** ** The penalties handler and its manager *)

(** While [penaltiesHandler] is [nil], resolving the penalties handler
    builds it around a penalties manager, and from then on
    [resolvePenaltiesManager] returns that manager and builds nothing:
    the handler being set is what its guard waits for. *)
Theorem penaltiesHandler_fixes_its_manager perf n r :
  fields r penaltiesHandler = None →
  3 ≤ n →
  ∃ base pm h r',
    resolve perf n resolvePenaltiesHandler r = Some (Some h, r')
    ∧ last (constructions r')
      = Some {| built := penaltiesHandler; at_ptr := h; from := [base; Some pm] |}
    ∧ fields r' penaltiesManager = Some pm
    ∧ ∀ n', 1 ≤ n' →
        resolve perf n' resolvePenaltiesManager r' = Some (Some pm, r').
Proof.
  intros Hnil Hn. destruct n as [|[|[|n]]]; [lia..|]. clear Hn.
  cbn [resolve]. unfold memo, mbind, M_bind, get, set, New. simpl.
  rewrite Hnil. simpl.
  destruct (fields r baseHandler) as [b|] eqn:Hb; simpl; rewrite ?Hb, ?Hnil; simpl;
    rewrite ?fn_lookup_insert_ne by done; rewrite ?Hnil; simpl;
    rewrite ?fn_lookup_insert; simpl.
  - eexists _, _, _, _. split; [reflexivity|]. simpl.
    split; [by rewrite last_snoc|]. split.
    + rewrite fn_lookup_insert_ne by done. by rewrite fn_lookup_insert.
    + intros [|n'] Hn'; [lia|]. cbn [resolve].
      unfold memo, mbind, M_bind, get. simpl.
      repeat (first [rewrite fn_lookup_insert
                    |rewrite fn_lookup_insert_ne by done]; simpl).
      done.
  - eexists _, _, _, _. split; [reflexivity|]. simpl.
    split; [by rewrite last_snoc|]. split.
    + rewrite fn_lookup_insert_ne by done. by rewrite fn_lookup_insert.
    + intros [|n'] Hn'; [lia|]. cbn [resolve].
      unfold memo, mbind, M_bind, get. simpl.
      repeat (first [rewrite fn_lookup_insert
                    |rewrite fn_lookup_insert_ne by done]; simpl).
      done.
Qed.

Lemma penaltiesHandler_fixes_its_manager_witness :
  ∃ base pm h r',
    resolve false 14 resolvePenaltiesHandler (literal false) = Some (Some h, r')
    ∧ last (constructions r')
      = Some {| built := penaltiesHandler; at_ptr := h; from := [base; Some pm] |}
    ∧ fields r' penaltiesManager = Some pm
    ∧ resolve false 1 resolvePenaltiesManager r' = Some (Some pm, r').
Proof.
  destruct (penaltiesHandler_fixes_its_manager false 14 (literal false))
    as (base & pm & h & r' & Hrun & Hlast & Hpm & Hall); [reflexivity|lia|].
  exists base, pm, h, r'. split; [exact Hrun|]. split; [exact Hlast|].
  split; [exact Hpm|]. apply Hall. lia.
Defined.

(** ** Building the resolver and the router *)

Lemma resolve_enough perf n m r :
  enough_steps ≤ n → resolve perf n m r = resolve perf enough_steps m r.
Proof.
  intros Hn. destruct (resolve_runs perf m r) as (v & r' & Hall).
  by rewrite (Hall n Hn), (Hall enough_steps).
Qed.

Lemma resolve_all_enough perf n ms : ∀ r,
  enough_steps ≤ n →
  resolve_all perf n ms r = resolve_all perf enough_steps ms r.
Proof.
  induction ms as [|m ms IH]; intros r Hn; [done|].
  cbn [resolve_all]. unfold mbind, M_bind.
  rewrite (resolve_enough perf n m r Hn).
  destruct (resolve perf enough_steps m r) as [[a r1]|]; [|done].
  by rewrite (IH r1 Hn).
Qed.

Lemma NewResolver_checked_enough perf n reload load render :
  enough_steps ≤ n →
  NewResolver_checked perf n reload load render
  = NewResolver_checked perf enough_steps reload load render.
Proof.
  intros Hn. unfold NewResolver_checked.
  destruct (initACSRClient_checked load (literal reload)) as [[[err|] r]|]; try done.
  unfold initViewRenderer_checked, mbind, M_bind, get. cbn beta iota.
  destruct (fields r viewRenderer); [reflexivity|].
  rewrite (resolve_enough perf n _ r Hn). reflexivity.
Qed.

(** [NewResolver] when one of its two steps fails.  When the server
    options cannot be loaded nothing has been constructed.  When the
    renderer cannot be built the error is returned as well, but by then
    the server process has been resolved for it: the components it needs
    exist, the plugin is set on it, and the goroutine of the race control
    hub is running, with no resolver left to reach them. *)
Theorem NewResolver_failures perf n reload err render :
  enough_steps ≤ n →
  NewResolver_checked perf n reload (Some err) render
  = Some (Failed err (literal reload))
  ∧ ∃ r,
      NewResolver_checked perf n reload None (Some err) = Some (Failed err r)
      ∧ fields r viewRenderer = None
      ∧ count_built serverProcess r = 1
      ∧ count_built raceControlHub r = 1
      ∧ length (goroutines r) = 1
      ∧ length (plugins r) = 1.
Proof.
  intros Hn. split; [done|].
  rewrite (NewResolver_checked_enough perf n reload None (Some err) Hn).
  destruct perf, reload; vm_compute; eexists; (split; [reflexivity|]); done.
Qed.

Lemma NewResolver_failures_witness :
  NewResolver_checked false 14 true (Some EOF) None
  = Some (Failed EOF (literal true))
  ∧ ∃ r,
      NewResolver_checked false 14 true None (Some EOF) = Some (Failed EOF r)
      ∧ fields r viewRenderer = None
      ∧ count_built serverProcess r = 1
      ∧ count_built raceControlHub r = 1
      ∧ length (goroutines r) = 1
      ∧ length (plugins r) = 1.
Proof.
  apply (NewResolver_failures false 14 true EOF None).
  unfold enough_steps. lia.
Defined.

Lemma wiring_check_enough perf reload :
  wiring_check perf enough_steps reload = true.
Proof. destruct perf, reload; vm_compute; reflexivity. Qed.

Lemma wiring_check_spec perf fuel reload :
  wiring_check perf fuel reload = true →
  ∃ r args r',
    NewResolver_checked perf fuel reload None None = Some (Built r)
    ∧ ResolveRouter perf fuel r = Some (args, r')
    ∧ length args = 20
    ∧ nil_positions args = (if perf then [12] else [])
    ∧ Forall (λ f, count_built f r' = wired_instances perf f) components.
Proof.
  unfold wiring_check. intros Hcheck.
  destruct (NewResolver_checked perf fuel reload None None)
    as [[r|err r]|] eqn:HN; [|done..].
  destruct (ResolveRouter perf fuel r) as [[args r']|] eqn:HR; [|done].
  exists r, args, r'. split; [done|]. split; [done|].
  apply andb_prop in Hcheck as [Hcheck Hcount].
  apply andb_prop in Hcheck as [Hlen Hnil].
  apply bool_decide_eq_true in Hlen, Hnil.
  split; [done|]. split; [done|].
  apply Forall_forall. intros f Hf.
  rewrite forallb_forall in Hcount.
  apply list_elem_of_In in Hf.
  specialize (Hcount f Hf). by apply bool_decide_eq_true in Hcount.
Qed.

Lemma ResolveRouter_enough perf n r :
  enough_steps ≤ n → ResolveRouter perf n r = ResolveRouter perf enough_steps r.
Proof. intros Hn. exact (resolve_all_enough perf n router_methods r Hn). Qed.

(** The application as [NewResolver] and [ResolveRouter] wire it: both
    return, the router gets its twenty handlers, all of them instances
    except the race control handler (argument 12, counting from 0) in
    performance mode, and every component has been constructed exactly
    once, but for the penalties manager, of which there are two. *)
Theorem ResolveRouter_wiring perf n reload :
  enough_steps ≤ n →
  ∃ r args r',
    NewResolver_checked perf n reload None None = Some (Built r)
    ∧ ResolveRouter perf n r = Some (args, r')
    ∧ length args = 20
    ∧ nil_positions args = (if perf then [12] else [])
    ∧ Forall (λ f, count_built f r' = wired_instances perf f) components.
Proof.
  intros Hn.
  destruct (wiring_check_spec perf enough_steps reload
              (wiring_check_enough perf reload))
    as (r & args & r' & HN & HR & Hrest).
  exists r, args, r'. split; [|split; [|exact Hrest]].
  - rewrite (NewResolver_checked_enough perf n reload None None Hn). exact HN.
  - rewrite (ResolveRouter_enough perf n r Hn). exact HR.
Qed.

Lemma ResolveRouter_wiring_witness :
  ∃ r args r',
    NewResolver_checked true 14 false None None = Some (Built r)
    ∧ ResolveRouter true 14 r = Some (args, r')
    ∧ length args = 20
    ∧ nil_positions args = [12]
    ∧ Forall (λ f, count_built f r' = wired_instances true f) components.
Proof.
  apply (ResolveRouter_wiring true 14 false). unfold enough_steps. lia.
Defined.
End ResolverMore.
